(** * The transport data pipeline of fe-tech-test: validation, leg
    calculation and aggregation, embedded in Rocq.

    Sources embedded here:
    - [src/utils/distanceCalculator.ts]: [fakeDistance],
      [calculateJourneyLegs], [getTransportModesString];
    - [src/utils/dataAggregator.ts]: [processCsvData],
      [getGlobalWeightByMode];
    - [src/schemas/transportRowSchema.ts]: [TransportRowSchema];
    - [src/utils/csvParser.ts]: the validation loop of [parseCsvFile]. *)

From Stdlib Require Import String Ascii DecimalString.
From Stdlib Require Import ZArith NArith QArith Qround Qabs.
From Stdlib Require Import List Bool Lia.
Import ListNotations.

Local Open Scope list_scope.

(** ** The JavaScript values the pipeline computes with *)

Module JS.

(** A JavaScript number: a finite value as the rational it denotes, the
    two infinities and NaN, which the validator and the comparisons of
    the pipeline tell apart.  The sign of zero is left out.

    The arithmetic below is exact.  It is the arithmetic of binary64
    wherever the binary64 result is exact: on the integers below 2^53
    that [fakeDistance], the leg distances and the counts work with, and
    for [Math_abs], [Math_round], [neg] and the comparisons on every
    value.  A sum of weights is rounded by JavaScript at every step:
    what is proved of such a sum is proved of the left-to-right
    reduction the code runs, without the laws that rounding breaks
    (associativity, commutativity, exactness), so that it holds of the
    rounded sum as it does of the exact one.  [round64] is the rounding
    itself, which [parseFloat] applies to a decimal literal. *)
Inductive number : Type :=
| Fin (q : Q)
| PosInf
| NegInf
| NaN.

Definition of_Z (z : Z) : number := Fin (inject_Z z).
Definition of_nat (n : nat) : number := of_Z (Z.of_nat n).

(** [x + y], the sum not rounded. *)
Definition add (x y : number) : number :=
  match x, y with
  | NaN, _ | _, NaN => NaN
  | Fin a, Fin b => Fin (a + b)
  | PosInf, NegInf | NegInf, PosInf => NaN
  | PosInf, _ | _, PosInf => PosInf
  | NegInf, _ | _, NegInf => NegInf
  end.

(** [- x] *)
Definition neg (x : number) : number :=
  match x with
  | Fin a => Fin (- a)
  | PosInf => NegInf
  | NegInf => PosInf
  | NaN => NaN
  end.

(** [x - y] *)
Definition sub (x y : number) : number := add x (neg y).

(** The infinity whose sign is that of the rational [a] times [s];
    NaN when [a] is zero (0 * Infinity). *)
Definition signed_inf (positive : bool) (a : Q) : number :=
  match Qcompare a 0 with
  | Eq => NaN
  | Gt => if positive then PosInf else NegInf
  | Lt => if positive then NegInf else PosInf
  end.

(** [x * y] *)
Definition mul (x y : number) : number :=
  match x, y with
  | NaN, _ | _, NaN => NaN
  | Fin a, Fin b => Fin (a * b)
  | Fin a, PosInf | PosInf, Fin a => signed_inf true a
  | Fin a, NegInf | NegInf, Fin a => signed_inf false a
  | PosInf, PosInf | NegInf, NegInf => PosInf
  | PosInf, NegInf | NegInf, PosInf => NegInf
  end.

(** [x < y]; every comparison with NaN is false. *)
Definition lt (x y : number) : bool :=
  match x, y with
  | NaN, _ | _, NaN => false
  | Fin a, Fin b => negb (Qle_bool b a)
  | NegInf, NegInf => false
  | NegInf, _ => true
  | _, NegInf => false
  | PosInf, _ => false
  | Fin _, PosInf => true
  end.

(** [x > y] *)
Definition gt (x y : number) : bool := lt y x.

(** [x <= y]; as [lt], false on NaN, so it is not the negation of [gt]. *)
Definition le (x y : number) : bool :=
  match x, y with
  | NaN, _ | _, NaN => false
  | Fin a, Fin b => Qle_bool a b
  | NegInf, _ => true
  | _, PosInf => true
  | _, NegInf => false
  | PosInf, Fin _ => false
  end.

Definition isNaN (x : number) : bool :=
  match x with NaN => true | _ => false end.

Definition isFinite (x : number) : bool :=
  match x with Fin _ => true | _ => false end.

Definition Math_abs (x : number) : number :=
  match x with
  | Fin a => Fin (Qabs a)
  | PosInf | NegInf => PosInf
  | NaN => NaN
  end.

(** [Math.round]: the nearest integer, a tie going to the greater one. *)
Definition Math_round (x : number) : number :=
  match x with
  | Fin a => of_Z (Qfloor (a + (1 # 2)))
  | _ => x
  end.

(** The integer part of a rational, rounding toward zero. *)
Definition Qtrunc (a : Q) : Z :=
  if Qle_bool 0 a then Qfloor a else Qceiling a.

(** [x % y]: the remainder has the sign of the dividend. *)
Definition rem (x y : number) : number :=
  match x, y with
  | NaN, _ | _, NaN => NaN
  | PosInf, _ | NegInf, _ => NaN
  | Fin a, PosInf | Fin a, NegInf => Fin a
  | Fin a, Fin b =>
      if Qeq_bool b 0 then NaN
      else Fin (a - b * inject_Z (Qtrunc (a / b)))
  end.

(** [floor (log2 q)] of a positive rational. *)
Definition Qlog2 (q : Q) : Z :=
  let k := (Z.log2 (Qnum q) - Z.log2 (Z.pos (Qden q)))%Z in
  if Qle_bool (Qpower 2 k) q then k else (k - 1)%Z.

(** The nearest integer, a tie going to the even one. *)
Definition round_half_even (q : Q) : Z :=
  let f := Qfloor q in
  match Qcompare (q - inject_Z f) (1 # 2) with
  | Lt => f
  | Gt => (f + 1)%Z
  | Eq => if Z.even f then f else (f + 1)%Z
  end.

(** The binary64 value nearest to a positive rational: 53 significant
    bits, the exponent of the last one at least -1074 (below that the
    value is subnormal, or rounds to zero), and infinity from 2^1024
    on. *)
Definition round64_pos (q : Q) : number :=
  let e := Z.max (Qlog2 q - 52) (-1074) in
  let m := round_half_even (q / Qpower 2 e) in
  let v := Qred (inject_Z m * Qpower 2 e) in
  if Qle_bool (Qpower 2 1024) v then PosInf else Fin v.

(** The Number value of a rational: round to nearest, ties to even. *)
Definition round64 (q : Q) : number :=
  match Qcompare q 0 with
  | Eq => Fin 0
  | Gt => round64_pos q
  | Lt => neg (round64_pos (- q))
  end.

(** Numbers that denote the same value: the same special value, or
    finite values equal as rationals. *)
Definition same_value (x y : number) : Prop :=
  match x, y with
  | Fin a, Fin b => a == b
  | PosInf, PosInf | NegInf, NegInf | NaN, NaN => True
  | _, _ => False
  end.

(** A JavaScript string: its sequence of UTF-16 code units. *)
Definition code_unit : Type := N.
Definition jsstring : Type := list code_unit.

Definition jsstring_eq_dec : forall s t : jsstring, {s = t} + {s <> t} :=
  list_eq_dec N.eq_dec.

(** The string of an ASCII literal. *)
Definition lit (s : string) : jsstring :=
  map N_of_ascii (list_ascii_of_string s).

(** [String(n)] of a non-negative integer, as template literals print an
    array index. *)
Definition string_of_index (n : nat) : jsstring :=
  lit (NilZero.string_of_uint (Nat.to_uint n)).

Definition is_high_surrogate (c : code_unit) : bool :=
  ((55296 <=? c) && (c <=? 56319))%N.

Definition is_low_surrogate (c : code_unit) : bool :=
  ((56320 <=? c) && (c <=? 57343))%N.

(** [[...str]]: the string iterator yields one string per code point, a
    high surrogate followed by a low surrogate staying together, any
    other code unit (a lone surrogate too) alone. *)
Fixpoint spread (s : jsstring) : list jsstring :=
  match s with
  | [] => []
  | c :: rest =>
      match rest with
      | d :: rest' =>
          if is_high_surrogate c && is_low_surrogate d
          then [c; d] :: spread rest'
          else [c] :: spread rest
      | [] => [[c]]
      end
  end.

(** [s.charCodeAt(i)]: the code unit at [i], NaN out of range. *)
Definition charCodeAt (s : jsstring) (i : nat) : number :=
  match nth_error s i with
  | Some c => of_Z (Z.of_N c)
  | None => NaN
  end.

(** WhiteSpace and LineTerminator code units, which [trim] and
    [parseFloat] skip. *)
Definition is_whitespace (c : code_unit) : bool :=
  ((9 <=? c) && (c <=? 13) || (c =? 32) || (c =? 160) || (c =? 5760)
   || (8192 <=? c) && (c <=? 8202) || (c =? 8232) || (c =? 8233)
   || (c =? 8239) || (c =? 8287) || (c =? 12288) || (c =? 65279))%N.

Fixpoint trimStart (s : jsstring) : jsstring :=
  match s with
  | c :: rest => if is_whitespace c then trimStart rest else s
  | [] => []
  end.

Definition trimEnd (s : jsstring) : jsstring := rev (trimStart (rev s)).

Definition trim (s : jsstring) : jsstring := trimEnd (trimStart s).

(** [arr.join(sep)] on an array of strings. *)
Fixpoint join (sep : jsstring) (parts : list jsstring) : jsstring :=
  match parts with
  | [] => []
  | [p] => p
  | p :: rest => p ++ sep ++ join sep rest
  end.

End JS.

(** ** src/types/index.ts *)

Module Types.
Import JS.

Inductive TransportMode : Type := Road | Sea.

Definition TransportMode_eqb (a b : TransportMode) : bool :=
  match a, b with
  | Road, Road | Sea, Sea => true
  | _, _ => false
  end.

Record JourneyLeg : Type := mkLeg {
  mode : TransportMode;
  leg_distance : number;
  leg_weight : number
}.

Record TransportRow : Type := mkRow {
  origin : jsstring;
  originCountry : jsstring;
  destination : jsstring;
  destinationCountry : jsstring;
  weightKg : number
}.

Record Route : Type := mkRoute {
  route_origin : jsstring;
  route_destination : jsstring;
  route_originCountry : jsstring;
  route_destinationCountry : jsstring
}.

Record Journey : Type := mkJourney {
  id : jsstring;
  route : Route;
  weight : number;
  distance : number;
  legs : list JourneyLeg;
  totalRoadWeight : number;
  totalSeaWeight : number
}.

Record RouteGroup : Type := mkRouteGroup {
  routeKey : jsstring;
  group_origin : jsstring;
  group_destination : jsstring;
  group_distance : number;
  timesTaken : number;
  totalDistance : number;
  modes : jsstring;
  group_totalWeight : number;
  group_totalRoadWeight : number;
  group_totalSeaWeight : number;
  journeys : list Journey
}.

Record ChartData : Type := mkChart {
  road : number;
  sea : number
}.

End Types.

(** ** src/utils/distanceCalculator.ts *)

Module DistanceCalculator.
Import JS Types.

Definition fakeDistance (from to : jsstring) : number :=
  let str := from ++ to in
  let charCodeSum :=
    fold_left (fun acc char => add acc (charCodeAt char 0))
              (spread str) (of_Z 0) in
  add (rem (Math_abs charCodeSum) (of_Z 3000)) (of_Z 100).

Definition calculateJourneyLegs (distance weight : number)
  : list JourneyLeg :=
  if gt distance (of_Z 1500) then
    [ mkLeg Road (of_Z 100) weight;
      mkLeg Sea (sub distance (of_Z 200)) weight;
      mkLeg Road (of_Z 100) weight ]
  else
    [ mkLeg Road distance weight ].

Definition mode_name (m : TransportMode) : jsstring :=
  match m with
  | Road => lit "Road"
  | Sea => lit "Sea"
  end.

Definition getTransportModesString (legs : list JourneyLeg) : jsstring :=
  let modes := map (fun leg => mode_name (mode leg)) legs in
  join (lit " + ") modes.

End DistanceCalculator.

(** ** src/utils/dataAggregator.ts *)

Module DataAggregator.
Import JS Types DistanceCalculator.

(** [arr.map((x, index) => f x index)], the index counted from [index]. *)
Fixpoint map_indexed {A B : Type} (f : A -> nat -> B) (index : nat)
    (l : list A) : list B :=
  match l with
  | [] => []
  | x :: rest => f x index :: map_indexed f (S index) rest
  end.

(** A [Map<string, V>]: the entries in insertion order of their keys;
    setting a key that is present replaces its value in place. *)
Definition Map (V : Type) : Type := list (jsstring * V).

Fixpoint Map_get {V : Type} (m : Map V) (k : jsstring) : option V :=
  match m with
  | [] => None
  | (k', v) :: m' => if jsstring_eq_dec k' k then Some v else Map_get m' k
  end.

Fixpoint Map_set {V : Type} (m : Map V) (k : jsstring) (v : V) : Map V :=
  match m with
  | [] => [(k, v)]
  | (k', v') :: m' =>
      if jsstring_eq_dec k' k then (k', v) :: m'
      else (k', v') :: Map_set m' k v
  end.

(** On success, every element mapped; [None] as soon as one call throws. *)
Fixpoint traverse {A B : Type} (f : A -> option B) (l : list A)
  : option (list B) :=
  match l with
  | [] => Some []
  | x :: rest =>
      match f x with
      | None => None
      | Some y =>
          match traverse f rest with
          | None => None
          | Some ys => Some (y :: ys)
          end
      end
  end.

(** STEP 1, the callback of [csvData.map]. *)
Definition toJourney (row : TransportRow) (index : nat) : Journey :=
  let distance := fakeDistance (origin row) (destination row) in
  let legs := calculateJourneyLegs distance (weightKg row) in
  let usesRoad :=
    existsb (fun leg => TransportMode_eqb (mode leg) Road) legs in
  let usesSea :=
    existsb (fun leg => TransportMode_eqb (mode leg) Sea) legs in
  let totalRoadWeight := if usesRoad then weightKg row else of_Z 0 in
  let totalSeaWeight := if usesSea then weightKg row else of_Z 0 in
  {| id := lit "journey-" ++ string_of_index index;
     route := {| route_origin := origin row;
                 route_destination := destination row;
                 route_originCountry := originCountry row;
                 route_destinationCountry := destinationCountry row |};
     weight := weightKg row;
     distance := distance;
     legs := legs;
     totalRoadWeight := totalRoadWeight;
     totalSeaWeight := totalSeaWeight |}.

(** The template [`${origin} → ${destination}`]; the arrow is U+2192. *)
Definition arrow : jsstring := [32; 8594; 32]%N.

Definition routeKeyOf (journey : Journey) : jsstring :=
  route_origin (route journey) ++ arrow
    ++ route_destination (route journey).

(** STEP 2, the callback of [journeys.forEach]. *)
Definition addToRouteMap (routeMap : Map (list Journey))
    (journey : Journey) : Map (list Journey) :=
  let routeKey := routeKeyOf journey in
  let existing :=
    match Map_get routeMap routeKey with
    | Some js => js
    | None => []
    end in
  Map_set routeMap routeKey (existing ++ [journey]).

Definition groupByRoute (journeys : list Journey) : Map (list Journey) :=
  fold_left addToRouteMap journeys [].

(** STEP 3, the callback of [Array.from(routeMap.entries()).map].
    [journeys[0]] of an empty array is [undefined], and reading its
    [distance] throws: [None]. *)
Definition toRouteGroup (entry : jsstring * list Journey)
  : option RouteGroup :=
  let (routeKey, journeys) := entry in
  match nth_error journeys 0 with
  | None => None
  | Some firstJourney =>
      let distance := distance firstJourney in
      let modes := getTransportModesString (legs firstJourney) in
      let totalWeight :=
        fold_left (fun sum j => add sum (weight j)) journeys (of_Z 0) in
      let totalRoadWeight :=
        fold_left (fun sum j => add sum (totalRoadWeight j))
                  journeys (of_Z 0) in
      let totalSeaWeight :=
        fold_left (fun sum j => add sum (totalSeaWeight j))
                  journeys (of_Z 0) in
      Some {| routeKey := routeKey;
              group_origin := route_origin (route firstJourney);
              group_destination := route_destination (route firstJourney);
              group_distance := distance;
              timesTaken := of_nat (length journeys);
              totalDistance := mul distance (of_nat (length journeys));
              modes := modes;
              group_totalWeight := totalWeight;
              group_totalRoadWeight := totalRoadWeight;
              group_totalSeaWeight := totalSeaWeight;
              journeys := journeys |}
  end.

Record Processed : Type := mkProcessed {
  out_journeys : list Journey;
  out_routeGroups : list RouteGroup
}.

Definition processCsvData (csvData : list TransportRow)
  : option Processed :=
  let journeys := map_indexed toJourney 0 csvData in
  let routeMap := groupByRoute journeys in
  match traverse toRouteGroup routeMap with
  | None => None
  | Some routeGroups =>
      Some {| out_journeys := journeys; out_routeGroups := routeGroups |}
  end.

Definition getGlobalWeightByMode (journeys : list Journey) : ChartData :=
  let totalRoadWeight :=
    fold_left (fun sum j => add sum (totalRoadWeight j))
              journeys (of_Z 0) in
  let totalSeaWeight :=
    fold_left (fun sum j => add sum (totalSeaWeight j))
              journeys (of_Z 0) in
  {| road := Math_round totalRoadWeight;
     sea := Math_round totalSeaWeight |}.

End DataAggregator.

(** ** src/schemas/transportRowSchema.ts *)

Module Schema.
Import JS Types.

(** An untyped value, as a parsed CSV record holds them.  [VOther] is any
    other value (a Date, an array, a bigint), with the string [String]
    gives for it. *)
Inductive jsval : Type :=
| VUndefined
| VNull
| VBool (b : bool)
| VNumber (n : number)
| VString (s : jsstring)
| VOther (toString : jsstring).

(** The value of a decimal digit. *)
Definition digit_value (c : code_unit) : option Z :=
  if ((48 <=? c) && (c <=? 57))%N then Some (Z.of_N c - 48)%Z else None.

(** The longest run of decimal digits at the front of [s], read on top of
    the digits in [acc]: the value, how many digits were read, the rest. *)
Fixpoint read_digits (acc : Z) (count : nat) (s : jsstring)
  : Z * nat * jsstring :=
  match s with
  | c :: rest =>
      match digit_value c with
      | Some d => read_digits (10 * acc + d) (S count) rest
      | None => (acc, count, s)
      end
  | [] => (acc, count, s)
  end.

(** An ExponentPart at the front of [s]: [e] or [E], an optional sign and
    at least one digit; 0 when there is none. *)
Definition read_exponent (s : jsstring) : Z :=
  match s with
  | c :: rest =>
      if ((c =? 101) || (c =? 69))%N then
        let '(sign, digits) :=
          match rest with
          | 43%N :: r => (1%Z, r)
          | 45%N :: r => ((-1)%Z, r)
          | _ => (1%Z, rest)
          end in
        let '(e, count, _) := read_digits 0 0 digits in
        match count with
        | O => 0%Z
        | S _ => (sign * e)%Z
        end
      else 0%Z
  | [] => 0%Z
  end.

(** The longest StrUnsignedDecimalLiteral at the front of [s], but for
    [Infinity]: digits, an optional fraction, an optional exponent, with
    a digit before or after the point.  The result is the mathematical
    value of the literal. *)
Definition read_decimal (s : jsstring) : option Q :=
  let '(int_part, int_count, after_int) := read_digits 0 0 s in
  let '(mantissa, frac_count, after_frac) :=
    match after_int with
    | 46%N :: r => read_digits int_part 0 r
    | _ => (int_part, O, after_int)
    end in
  match (int_count + frac_count)%nat with
  | O => None
  | S _ =>
      let e := (read_exponent after_frac - Z.of_nat frac_count)%Z in
      Some (Qred (inject_Z mantissa * Qpower (inject_Z 10) e))
  end.

Fixpoint starts_with (prefix s : jsstring) : bool :=
  match prefix, s with
  | [], _ => true
  | p :: prefix', c :: s' => (p =? c)%N && starts_with prefix' s'
  | _ :: _, [] => false
  end.

(** [parseFloat(s)]: leading white space skipped, then the longest prefix
    that is a decimal literal, whose value is rounded to binary64 (a
    literal below the least subnormal gives 0, one from 2^1024 on gives
    Infinity); NaN when there is none. *)
Definition parseFloat (s : jsstring) : number :=
  let trimmed := trimStart s in
  let '(negative, body) :=
    match trimmed with
    | 43%N :: r => (false, r)
    | 45%N :: r => (true, r)
    | _ => (false, trimmed)
    end in
  if starts_with (lit "Infinity") body then
    if negative then NegInf else PosInf
  else
    match read_decimal body with
    | None => NaN
    | Some q => if negative then neg (round64 q) else round64 q
    end.

(** [String(val)], for every value but a number. *)
Definition String_of (val : jsval) : jsstring :=
  match val with
  | VUndefined => lit "undefined"
  | VNull => lit "null"
  | VBool true => lit "true"
  | VBool false => lit "false"
  | VString s => s
  | VOther s => s
  | VNumber _ => []
  end.

(** [parseFloat(String(val))].  A number prints as the shortest decimal
    that reads back as the same number (and as [Infinity], [-Infinity]
    or [NaN]), so [parseFloat] returns it unchanged. *)
Definition parseFloat_String (val : jsval) : number :=
  match val with
  | VNumber n => n
  | _ => parseFloat (String_of val)
  end.

(** The function given to [z.preprocess] for [weightKg]. *)
Definition preprocessWeight (val : jsval) : jsval :=
  let num := parseFloat_String val in
  if isNaN num then val else VNumber (Math_abs num).

(** *** The part of Zod 3 the schema uses *)

Inductive ZodParsedType : Type :=
| t_undefined | t_null | t_boolean | t_number | t_nan | t_string | t_other.

Definition getParsedType (v : jsval) : ZodParsedType :=
  match v with
  | VUndefined => t_undefined
  | VNull => t_null
  | VBool _ => t_boolean
  | VNumber n => if isNaN n then t_nan else t_number
  | VString _ => t_string
  | VOther _ => t_other
  end.

Inductive field : Type :=
| f_origin | f_originCountry | f_destination | f_destinationCountry
| f_weightKg.

(** An issue: [invalid_type] when the value has not the expected type (its
    message is "Required" for [undefined], "Expected ..., received ..."
    otherwise), [too_small] when a [min] or [positive] check fails, with
    the message the schema gives the check. *)
Inductive ZodIssueCode : Type :=
| invalid_type (expected received : ZodParsedType)
| too_small (message : string).

Record ZodIssue : Type := mkIssue {
  code : ZodIssueCode;
  path : field
}.

(** The outcome of parsing one value: the data, or the issues found. *)
Inductive ParseReturn (A : Type) : Type :=
| OK (data : A)
| INVALID (issues : list ZodIssue).
Arguments OK {A} data.
Arguments INVALID {A} issues.

Definition issues_of {A : Type} (r : ParseReturn A) : list ZodIssue :=
  match r with
  | OK _ => []
  | INVALID issues => issues
  end.

(** [z.string().trim()] *)
Definition string_trim (p : field) (v : jsval) : ParseReturn jsstring :=
  match v with
  | VString s => OK (trim s)
  | _ => INVALID [mkIssue (invalid_type t_string (getParsedType v)) p]
  end.

(** [z.string().trim().min(1, message)] *)
Definition string_trim_min1 (p : field) (message : string) (v : jsval)
  : ParseReturn jsstring :=
  match string_trim p v with
  | OK s =>
      if (List.length s <? 1)%nat then INVALID [mkIssue (too_small message) p]
      else OK s
  | INVALID issues => INVALID issues
  end.

(** [z.string().trim().default('')] *)
Definition string_trim_default (p : field) (v : jsval)
  : ParseReturn jsstring :=
  match v with
  | VUndefined => string_trim p (VString [])
  | _ => string_trim p v
  end.

(** [z.number().positive(message)]: a number that is not NaN (an infinity
    is a number to Zod 3; only [.finite()] would refuse it) and is
    greater than 0. *)
Definition number_positive (p : field) (message : string) (v : jsval)
  : ParseReturn number :=
  match v with
  | VNumber n =>
      if isNaN n then INVALID [mkIssue (invalid_type t_number t_nan) p]
      else if le n (of_Z 0) then INVALID [mkIssue (too_small message) p]
      else OK n
  | _ => INVALID [mkIssue (invalid_type t_number (getParsedType v)) p]
  end.

(** [z.preprocess(f, schema)] *)
Definition preprocess {A : Type} (f : jsval -> jsval)
    (schema : jsval -> ParseReturn A) (v : jsval) : ParseReturn A :=
  schema (f v).

(** A raw record; a property that is absent reads as [VUndefined]. *)
Record RawRow : Type := mkRaw {
  raw_origin : jsval;
  raw_originCountry : jsval;
  raw_destination : jsval;
  raw_destinationCountry : jsval;
  raw_weightKg : jsval
}.

Definition parse_origin : jsval -> ParseReturn jsstring :=
  string_trim_min1 f_origin "Origin is required".
Definition parse_originCountry : jsval -> ParseReturn jsstring :=
  string_trim_default f_originCountry.
Definition parse_destination : jsval -> ParseReturn jsstring :=
  string_trim_min1 f_destination "Destination is required".
Definition parse_destinationCountry : jsval -> ParseReturn jsstring :=
  string_trim_default f_destinationCountry.
Definition parse_weightKg : jsval -> ParseReturn number :=
  preprocess preprocessWeight
    (number_positive f_weightKg "Weight must be a positive number").

(** [TransportRowSchema.safeParse(row)]: [z.object] parses every property
    in the order of its shape and gathers the issues of all of them. *)
Definition safeParse (row : RawRow) : ParseReturn TransportRow :=
  let o := parse_origin (raw_origin row) in
  let oc := parse_originCountry (raw_originCountry row) in
  let d := parse_destination (raw_destination row) in
  let dc := parse_destinationCountry (raw_destinationCountry row) in
  let w := parse_weightKg (raw_weightKg row) in
  match o, oc, d, dc, w with
  | OK o', OK oc', OK d', OK dc', OK w' => OK (mkRow o' oc' d' dc' w')
  | _, _, _, _, _ =>
      INVALID (issues_of o ++ issues_of oc ++ issues_of d
                 ++ issues_of dc ++ issues_of w)
  end.

End Schema.

(** ** src/utils/csvParser.ts *)

Module CsvParser.
Import JS Types Schema.

Record ValidationError : Type := mkValidationError {
  rowIndex : nat;
  errors : list ZodIssue
}.

Record CsvParseResult : Type := mkResult {
  validRows : list TransportRow;
  res_errors : list ValidationError
}.

(** The callback of [result.data.forEach]: one push, to [validRows] or
    to [errors]. *)
Definition validateRow (acc : CsvParseResult) (row : RawRow) (index : nat)
  : CsvParseResult :=
  match safeParse row with
  | OK data =>
      {| validRows := validRows acc ++ [data];
         res_errors := res_errors acc |}
  | INVALID issues =>
      {| validRows := validRows acc;
         res_errors :=
           res_errors acc ++ [mkValidationError (index + 1) issues] |}
  end.

(** [arr.forEach((x, index) => ...)] threading the two arrays the callback
    pushes to, the index counted from [index]. *)
Fixpoint forEach_indexed {A St : Type} (f : St -> A -> nat -> St)
    (index : nat) (l : list A) (acc : St) : St :=
  match l with
  | [] => acc
  | x :: rest => forEach_indexed f (S index) rest (f acc x index)
  end.

(** The [complete] callback of [parseCsvFile], on the records Papa Parse
    read. *)
Definition validateRows (data : list RawRow) : CsvParseResult :=
  forEach_indexed validateRow 0 data
    {| validRows := []; res_errors := [] |}.

End CsvParser.

(** * Properties *)

(** ** Arithmetic of [number] *)

Module NumberFacts.
Import JS.

Lemma add_of_Z (a b : Z) : add (of_Z a) (of_Z b) = of_Z (a + b).
Proof.
  unfold add, of_Z, inject_Z, Qplus; cbn [Qnum Qden].
  now rewrite !Z.mul_1_r.
Qed.

Lemma Math_abs_of_Z (a : Z) : Math_abs (of_Z a) = of_Z (Z.abs a).
Proof. reflexivity. Qed.

(** On a non-negative integer, [% 3000] is the integer remainder. *)
Lemma rem_3000_of_Z (a : Z) :
  (0 <= a)%Z -> rem (of_Z a) (of_Z 3000) = of_Z (a mod 3000).
Proof.
  intros Ha.
  unfold rem, of_Z.
  change (Qeq_bool (inject_Z 3000) 0) with false. cbv iota.
  f_equal.
  assert (Ht : Qtrunc (inject_Z a / inject_Z 3000) = (a / 3000)%Z).
  { unfold Qtrunc, Qdiv, Qinv, Qmult, inject_Z, Qle_bool, Qfloor;
      cbn [Qnum Qden].
    change (Z.pos (1 * 3000)) with 3000%Z.
    rewrite !Z.mul_1_r.
    destruct (0 * 3000 <=? a)%Z eqn:E; [reflexivity|].
    apply Z.leb_gt in E. lia. }
  rewrite Ht.
  unfold Qminus, Qplus, Qopp, Qmult, inject_Z; cbn [Qnum Qden].
  f_equal.
  rewrite (Z.mod_eq a 3000) by lia. lia.
Qed.

(** [<=] and [>] against a finite bound exclude each other. *)
Lemma le_not_gt (x y : number) : le x y = true -> gt x y = false.
Proof.
  destruct x, y; cbn; try congruence.
  intros ->. reflexivity.
Qed.

(** What [arr.reduce((sum, x) => sum + f(x), 0)] computes: the sum of
    [f] over the array as the code takes it, from 0 and from left to
    right, one JavaScript addition for each element. *)
Definition total {A : Type} (f : A -> number) (l : list A) : number :=
  fold_left (fun acc x => add acc (f x)) l (of_Z 0).

(** The reduction reads nothing of an element but the summand. *)
Lemma reduce_ext {A : Type} (f g : A -> number) (l : list A)
    (start : number) :
  (forall x, In x l -> f x = g x) ->
  fold_left (fun acc x => add acc (f x)) l start
  = fold_left (fun acc x => add acc (g x)) l start.
Proof.
  revert start. induction l as [|x l IH]; intros start H; cbn [fold_left].
  - reflexivity.
  - rewrite (H x) by now left.
    apply IH. intros y Hy. apply H. now right.
Qed.

Lemma total_ext {A : Type} (f g : A -> number) (l : list A) :
  (forall x, In x l -> f x = g x) -> total f l = total g l.
Proof. apply reduce_ext. Qed.



End NumberFacts.

(** ** The leg calculator *)

Module DistanceFacts.
Import JS Types DistanceCalculator NumberFacts.

(** Code units are 16-bit values. *)
Definition valid_string (s : jsstring) : Prop :=
  Forall (fun c => (c < 65536)%N) s.

Fixpoint Zsum (l : list Z) : Z :=
  match l with
  | [] => 0
  | x :: rest => x + Zsum rest
  end.

(** The code points of a string, as the spec reads "every character":
    a high surrogate followed by a low one is the one character they
    encode, any other code unit is a character of its own. *)
Fixpoint codePoints (s : jsstring) : list Z :=
  match s with
  | [] => []
  | c :: rest =>
      match rest with
      | d :: rest' =>
          if is_high_surrogate c && is_low_surrogate d
          then ((Z.of_N c - 55296) * 1024 + (Z.of_N d - 56320) + 65536)%Z
                 :: codePoints rest'
          else Z.of_N c :: codePoints rest
      | [] => [Z.of_N c]
      end
  end.

(** The distance in the spec's words: the code points of the
    concatenation summed, the absolute value modulo 3000, plus 100. *)
Definition code_point_distance (origin destination : jsstring) : Z :=
  (Z.abs (Zsum (codePoints (origin ++ destination))) mod 3000 + 100)%Z.

(** The first UTF-16 code unit of a character: the code point itself in
    the Basic Multilingual Plane, the high surrogate above it. *)
Definition first_unit (cp : Z) : Z :=
  if (cp <? 65536)%Z then cp else (55296 + (cp - 65536) / 1024)%Z.

(** What the code sums. *)
Definition first_unit_distance (origin destination : jsstring) : Z :=
  (Z.abs (Zsum (map first_unit (codePoints (origin ++ destination))))
     mod 3000 + 100)%Z.

(** Induction on a string two code units at a time, as [spread] reads it. *)
Lemma pair_induction (P : jsstring -> Prop) :
  P [] ->
  (forall c, P [c]) ->
  (forall c d rest, P rest -> P (d :: rest) -> P (c :: d :: rest)) ->
  forall s, P s.
Proof.
  intros Hnil Hone Hstep s.
  assert (H : P s /\ forall c, P (c :: s)).
  { induction s as [|d rest [IH1 IH2]].
    - split; [exact Hnil | exact Hone].
    - split; [apply IH2 | intros c; apply Hstep; [exact IH1 | apply IH2]]. }
  apply H.
Qed.

Lemma surrogates_range (c d : code_unit) :
  is_high_surrogate c && is_low_surrogate d = true ->
  (55296 <= Z.of_N c <= 56319 /\ 56320 <= Z.of_N d <= 57343)%Z.
Proof.
  unfold is_high_surrogate, is_low_surrogate.
  rewrite !andb_true_iff, !N.leb_le. lia.
Qed.

Lemma first_unit_pair (c d : code_unit) :
  is_high_surrogate c && is_low_surrogate d = true ->
  first_unit ((Z.of_N c - 55296) * 1024 + (Z.of_N d - 56320) + 65536)
  = Z.of_N c.
Proof.
  intros H. apply surrogates_range in H. unfold first_unit.
  destruct (Z.ltb_spec
    ((Z.of_N c - 55296) * 1024 + (Z.of_N d - 56320) + 65536) 65536);
    [lia|].
  replace ((Z.of_N c - 55296) * 1024 + (Z.of_N d - 56320) + 65536 - 65536)%Z
    with ((Z.of_N d - 56320) + (Z.of_N c - 55296) * 1024)%Z by lia.
  rewrite Z.div_add by lia.
  rewrite Z.div_small by lia. lia.
Qed.

Lemma first_unit_single (c : code_unit) :
  (c < 65536)%N -> first_unit (Z.of_N c) = Z.of_N c.
Proof.
  intros H. unfold first_unit.
  destruct (Z.ltb_spec (Z.of_N c) 65536); [reflexivity | lia].
Qed.

Lemma spread_cons_cons (c d : code_unit) (rest : jsstring) :
  spread (c :: d :: rest)
  = if is_high_surrogate c && is_low_surrogate d
    then [c; d] :: spread rest
    else [c] :: spread (d :: rest).
Proof. reflexivity. Qed.

Lemma codePoints_cons_cons (c d : code_unit) (rest : jsstring) :
  codePoints (c :: d :: rest)
  = if is_high_surrogate c && is_low_surrogate d
    then ((Z.of_N c - 55296) * 1024 + (Z.of_N d - 56320) + 65536)%Z
           :: codePoints rest
    else Z.of_N c :: codePoints (d :: rest).
Proof. reflexivity. Qed.

(** The running sum of [fakeDistance] is the sum of the first code units
    of the characters. *)
Lemma charCodeSum_from (s : jsstring) :
  valid_string s ->
  forall z,
    fold_left (fun acc char => add acc (charCodeAt char 0))
              (spread s) (of_Z z)
    = of_Z (z + Zsum (map first_unit (codePoints s))).
Proof.
  induction s as [| c | c d rest IH1 IH2] using pair_induction;
    intros Hv z.
  - cbn. now rewrite Z.add_0_r.
  - inversion Hv; subst.
    cbn [spread codePoints fold_left map Zsum].
    change (charCodeAt [c] 0) with (of_Z (Z.of_N c)).
    rewrite add_of_Z, first_unit_single by assumption.
    now rewrite Z.add_0_r.
  - inversion Hv as [|? ? Hc Hv']; subst.
    inversion Hv' as [|? ? Hd Hv'']; subst.
    rewrite spread_cons_cons, codePoints_cons_cons.
    destruct (is_high_surrogate c && is_low_surrogate d) eqn:E.
    + cbn [fold_left map Zsum].
      change (charCodeAt [c; d] 0) with (of_Z (Z.of_N c)).
      rewrite add_of_Z, IH1 by assumption.
      rewrite first_unit_pair by assumption.
      f_equal. ring.
    + cbn [fold_left map Zsum].
      change (charCodeAt [c] 0) with (of_Z (Z.of_N c)).
      rewrite add_of_Z, IH2 by assumption.
      rewrite first_unit_single by assumption.
      f_equal. ring.
Qed.

Lemma valid_string_app (s t : jsstring) :
  valid_string s -> valid_string t -> valid_string (s ++ t).
Proof. intros Hs Ht. apply Forall_app. now split. Qed.

(** [fakeDistance] in closed form. *)
Lemma fakeDistance_first_units (from to : jsstring) :
  valid_string from -> valid_string to ->
  fakeDistance from to = of_Z (first_unit_distance from to).
Proof.
  intros Hf Ht. unfold fakeDistance, first_unit_distance.
  rewrite charCodeSum_from by now apply valid_string_app.
  rewrite Z.add_0_l, Math_abs_of_Z.
  rewrite rem_3000_of_Z by apply Z.abs_nonneg.
  apply add_of_Z.
Qed.

(** Where no character lies above the Basic Multilingual Plane the first
    code unit of each is its code point. *)
Lemma first_unit_bmp (l : list Z) :
  Forall (fun cp => (cp < 65536)%Z) l -> map first_unit l = l.
Proof.
  induction 1 as [|cp l Hcp _ IH]; cbn; [reflexivity|].
  rewrite IH. f_equal. unfold first_unit.
  destruct (Z.ltb_spec cp 65536); [reflexivity | lia].
Qed.

(** Whether appending [b] to [a] joins a high surrogate ending [a] with
    a low surrogate starting [b] into one character. *)
Definition joins_surrogates (a b : jsstring) : bool :=
  match b with
  | d :: _ => is_low_surrogate d && is_high_surrogate (last a 0%N)
  | [] => false
  end.

(** A code point that is a surrogate on its own. *)
Definition lone_surrogate (ch : jsstring) : bool :=
  match ch with
  | [c] => is_high_surrogate c || is_low_surrogate c
  | _ => false
  end.

(** Every surrogate of the string stands in a pair. *)
Definition paired_surrogates (s : jsstring) : bool :=
  forallb (fun ch => negb (lone_surrogate ch)) (spread s).

(** Well-formed UTF-16, the text that decoding a file gives (a decoder
    puts U+FFFD where the bytes would give a surrogate on its own):
    16-bit code units, every surrogate in a pair. *)
Definition well_formed (s : jsstring) : Prop :=
  valid_string s /\ paired_surrogates s = true.

Lemma low_not_high (c : code_unit) :
  is_low_surrogate c = true -> is_high_surrogate c = false.
Proof.
  unfold is_low_surrogate, is_high_surrogate. intros H.
  apply andb_true_iff in H. destruct H as [H _].
  apply N.leb_le in H. apply andb_false_iff. right.
  apply N.leb_gt. lia.
Qed.

(** A string whose surrogates are paired does not end with a high one. *)
Lemma paired_last (s : jsstring) :
  paired_surrogates s = true -> is_high_surrogate (last s 0%N) = false.
Proof.
  pattern s. apply pair_induction; clear s.
  - reflexivity.
  - intros c H. unfold paired_surrogates in H.
    cbn [spread forallb lone_surrogate] in H.
    rewrite andb_true_r in H. apply negb_true_iff in H.
    now apply orb_false_iff in H.
  - intros c d rest IH1 IH2 H. unfold paired_surrogates in H.
    rewrite spread_cons_cons in H.
    change (last (c :: d :: rest) 0%N) with (last (d :: rest) 0%N).
    destruct (is_high_surrogate c && is_low_surrogate d) eqn:E.
    + cbn [forallb lone_surrogate negb] in H.
      destruct rest as [|e rest].
      * apply andb_true_iff in E. now apply low_not_high.
      * change (last (d :: e :: rest) 0%N) with (last (e :: rest) 0%N).
        now apply IH1.
    + cbn [forallb] in H. apply andb_true_iff in H. now apply IH2.
Qed.

Lemma paired_no_join (a b : jsstring) :
  paired_surrogates a = true -> joins_surrogates a b = false.
Proof.
  intros H. destruct b as [|d b]; [reflexivity|].
  cbn [joins_surrogates]. rewrite (paired_last a H).
  apply andb_false_r.
Qed.

Lemma joins_surrogates_tail (c : code_unit) (a b : jsstring) :
  joins_surrogates (c :: a) b = false -> joins_surrogates a b = false.
Proof.
  destruct b as [|d b]; [reflexivity|].
  destruct a as [|c' a]; [intros _; apply andb_false_r|].
  exact (fun H => H).
Qed.

(** Unless a surrogate pair forms at the junction, the characters of a
    concatenation are those of its two parts. *)
Lemma codePoints_app (a b : jsstring) :
  joins_surrogates a b = false ->
  codePoints (a ++ b) = codePoints a ++ codePoints b.
Proof.
  induction a as [| c | c d rest IH1 IH2] using pair_induction;
    intros Hj.
  - reflexivity.
  - destruct b as [|d b]; [reflexivity|].
    cbn [app]. rewrite codePoints_cons_cons.
    cbn [joins_surrogates last] in Hj.
    now rewrite andb_comm, Hj.
  - cbn [app]. rewrite !codePoints_cons_cons.
    pose proof (joins_surrogates_tail _ _ _ Hj) as Hj2.
    pose proof (joins_surrogates_tail _ _ _ Hj2) as Hj1.
    destruct (is_high_surrogate c && is_low_surrogate d).
    + cbn [app]. now rewrite IH1.
    + cbn [app]. f_equal. now apply IH2.
Qed.

Lemma Zsum_app (l1 l2 : list Z) : Zsum (l1 ++ l2) = (Zsum l1 + Zsum l2)%Z.
Proof.
  induction l1 as [|x l1 IH]; cbn [app Zsum]; [reflexivity|].
  rewrite IH. ring.
Qed.

(** A smiling face, U+1F600: one character, two code units. *)
Definition grinning_face : jsstring := [55357; 56832]%N.

(** C2: for every distance [d] and weight [w], [d <= 1500] gives the
    single leg [{Road, d, w}] and [d > 1500] gives the three legs
    [{Road, 100, w}], [{Sea, d - 200, w}], [{Road, 100, w}] in that order;
    the threshold is strict (1500 is the single leg, 1501 the three legs
    with a Sea leg of 1301), and the Sea leg is [d - 200] as it stands,
    neither floored nor clamped (1500.5 gives 1300.5, an infinite
    distance an infinite Sea leg). *)
Theorem calculateJourneyLegs_threshold (d w : number) :
  (le d (of_Z 1500) = true ->
   calculateJourneyLegs d w = [mkLeg Road d w])
  /\ (gt d (of_Z 1500) = true ->
      calculateJourneyLegs d w
      = [mkLeg Road (of_Z 100) w;
         mkLeg Sea (sub d (of_Z 200)) w;
         mkLeg Road (of_Z 100) w])
  /\ calculateJourneyLegs (of_Z 1500) w = [mkLeg Road (of_Z 1500) w]
  /\ calculateJourneyLegs (of_Z 1501) w
     = [mkLeg Road (of_Z 100) w;
        mkLeg Sea (of_Z 1301) w;
        mkLeg Road (of_Z 100) w]
  /\ map leg_distance (calculateJourneyLegs (Fin (3001 # 2)) w)
     = [of_Z 100; Fin (2601 # 2); of_Z 100]
  /\ map leg_distance (calculateJourneyLegs PosInf w)
     = [of_Z 100; PosInf; of_Z 100].
Proof.
  repeat split.
  - intros H. unfold calculateJourneyLegs.
    now rewrite (le_not_gt _ _ H).
  - intros H. unfold calculateJourneyLegs. now rewrite H.
Qed.

Lemma calculateJourneyLegs_threshold_witness :
  calculateJourneyLegs (of_Z 231) (of_Z 500)
  = [mkLeg Road (of_Z 231) (of_Z 500)]
  /\ calculateJourneyLegs (of_Z 2500) (of_Z 500)
     = [mkLeg Road (of_Z 100) (of_Z 500);
        mkLeg Sea (sub (of_Z 2500) (of_Z 200)) (of_Z 500);
        mkLeg Road (of_Z 100) (of_Z 500)].
Proof.
  split.
  - apply (proj1 (calculateJourneyLegs_threshold (of_Z 231) (of_Z 500))).
    reflexivity.
  - apply (proj1 (proj2
             (calculateJourneyLegs_threshold (of_Z 2500) (of_Z 500)))).
    reflexivity.
Defined.

(** C3, as stated, fails: for the one-character string U+1F600 the code
    sums the character's first code unit, 55357, and returns 1457, while
    the code point, 128512, gives 2612. *)
Lemma fakeDistance_astral_not_code_point :
  fakeDistance grinning_face [] = of_Z 1457
  /\ code_point_distance grinning_face [] = 2612%Z
  /\ fakeDistance grinning_face []
     <> of_Z (code_point_distance grinning_face []).
Proof.
  split; [reflexivity | split; [reflexivity | ]].
  vm_compute. discriminate.
Qed.

(** C3, amended: for every pair of strings, [fakeDistance] is the sum,
    over the characters of [origin ++ destination], of the first UTF-16
    code unit of each character, in absolute value, modulo 3000, plus
    100; where every character is in the Basic Multilingual Plane that
    is the sum of the code points; and equal inputs give equal outputs. *)
Theorem fakeDistance_formula (origin destination : jsstring) :
  valid_string origin -> valid_string destination ->
  fakeDistance origin destination
  = of_Z (first_unit_distance origin destination)
  /\ (Forall (fun cp => (cp < 65536)%Z)
        (codePoints (origin ++ destination)) ->
      fakeDistance origin destination
      = of_Z (code_point_distance origin destination))
  /\ (forall origin' destination',
        origin' = origin -> destination' = destination ->
        fakeDistance origin' destination'
        = fakeDistance origin destination).
Proof.
  intros Ho Hd. split; [|split].
  - now apply fakeDistance_first_units.
  - intros Hbmp. rewrite fakeDistance_first_units by assumption.
    unfold first_unit_distance, code_point_distance.
    now rewrite first_unit_bmp.
  - now intros ? ? -> ->.
Qed.

Lemma fakeDistance_formula_witness :
  fakeDistance (lit "London") (lit "Paris") = of_Z 1229
  /\ fakeDistance (lit "London") (lit "Paris")
     = of_Z (code_point_distance (lit "London") (lit "Paris")).
Proof.
  assert (Ho : valid_string (lit "London"))
    by (vm_compute; repeat constructor).
  assert (Hd : valid_string (lit "Paris"))
    by (vm_compute; repeat constructor).
  destruct (fakeDistance_formula (lit "London") (lit "Paris") Ho Hd)
    as [H1 [H2 _]].
  split.
  - rewrite H1. reflexivity.
  - apply H2. vm_compute. repeat constructor.
Defined.

End DistanceFacts.

(** ** The aggregator *)

Module AggregatorFacts.
Import JS Types DistanceCalculator DataAggregator NumberFacts.

Definition has_key (k : jsstring) (j : Journey) : bool :=
  if jsstring_eq_dec (routeKeyOf j) k then true else false.

Definition differs_from (k k' : jsstring) : bool :=
  if jsstring_eq_dec k' k then false else true.

(** The distinct keys of a list, each at its first occurrence. *)
Fixpoint first_seen (keys : list jsstring) : list jsstring :=
  match keys with
  | [] => []
  | k :: rest => k :: filter (differs_from k) (first_seen rest)
  end.

(** Grouping as the spec words it: one entry per distinct route key, in
    first-seen order, holding the journeys of that key in input order. *)
Definition grouped (journeys : list Journey) : Map (list Journey) :=
  map (fun k => (k, filter (has_key k) journeys))
      (first_seen (map routeKeyOf journeys)).

(** *** [map] with an index *)

Lemma map_indexed_length {A B : Type} (f : A -> nat -> B) (l : list A) :
  forall k, List.length (map_indexed f k l) = List.length l.
Proof. induction l as [|x l IH]; intros k; cbn; [|rewrite IH]; reflexivity. Qed.

Lemma map_indexed_nth {A B : Type} (f : A -> nat -> B) (l : list A) :
  forall k i x,
    nth_error l i = Some x ->
    nth_error (map_indexed f k l) i = Some (f x (k + i)%nat).
Proof.
  induction l as [|y l IH]; intros k i x H.
  - destruct i; discriminate.
  - destruct i as [|i]; cbn in *.
    + injection H as ->. now rewrite Nat.add_0_r.
    + rewrite (IH (S k) i x H). f_equal. f_equal. lia.
Qed.

Lemma map_indexed_In {A B : Type} (f : A -> nat -> B) (l : list A) :
  forall k y,
    In y (map_indexed f k l) -> exists x i, In x l /\ y = f x i.
Proof.
  induction l as [|x l IH]; intros k y H; cbn in H; [contradiction|].
  destruct H as [<- | H].
  - exists x, k. split; [now left | reflexivity].
  - destruct (IH _ _ H) as [x' [i [Hx Hy]]].
    exists x', i. split; [now right | exact Hy].
Qed.

(** *** First-seen keys *)

Lemma differs_from_true (k k' : jsstring) :
  differs_from k k' = true <-> k' <> k.
Proof.
  unfold differs_from. destruct (jsstring_eq_dec k' k); split;
    congruence.
Qed.

Lemma first_seen_In (k : jsstring) (keys : list jsstring) :
  In k (first_seen keys) <-> In k keys.
Proof.
  induction keys as [|a keys IH]; cbn; [tauto|].
  rewrite filter_In, IH, differs_from_true.
  destruct (jsstring_eq_dec k a) as [->|Hne]; [tauto|].
  split; intros [H|H]; try tauto; congruence.
Qed.

Lemma first_seen_NoDup (keys : list jsstring) : NoDup (first_seen keys).
Proof.
  induction keys as [|a keys IH]; cbn; constructor.
  - intros H. apply filter_In in H. destruct H as [_ H].
    apply differs_from_true in H. congruence.
  - now apply NoDup_filter.
Qed.

Lemma first_seen_snoc (k : jsstring) (keys : list jsstring) :
  first_seen (keys ++ [k])
  = if in_dec jsstring_eq_dec k keys then first_seen keys
    else first_seen keys ++ [k].
Proof.
  induction keys as [|a keys IH]; [reflexivity|].
  cbn [app first_seen]. rewrite IH.
  destruct (in_dec jsstring_eq_dec k keys) as [Hin|Hnin];
    destruct (in_dec jsstring_eq_dec k (a :: keys)) as [Hin'|Hnin'].
  - reflexivity.
  - exfalso. apply Hnin'. now right.
  - destruct Hin' as [->|Hin']; [|contradiction].
    rewrite filter_app. cbn [filter].
    replace (differs_from k k) with false
      by (unfold differs_from; now destruct (jsstring_eq_dec k k)).
    now rewrite app_nil_r.
  - rewrite filter_app. cbn [filter].
    replace (differs_from a k) with true; [reflexivity|].
    symmetry. apply differs_from_true. intros ->. apply Hnin'. now left.
Qed.

(** *** The insertion-ordered map *)

Lemma Map_get_present {V : Type} (F : jsstring -> V)
    (ks : list jsstring) (k : jsstring) :
  In k ks -> Map_get (map (fun k' => (k', F k')) ks) k = Some (F k).
Proof.
  induction ks as [|a ks IH]; intros Hin; [contradiction|].
  cbn. destruct (jsstring_eq_dec a k) as [->|Hne]; [reflexivity|].
  destruct Hin as [->|Hin]; [congruence | now apply IH].
Qed.

Lemma Map_get_absent {V : Type} (m : Map V) (k : jsstring) :
  ~ In k (map fst m) -> Map_get m k = None.
Proof.
  induction m as [|[a v] m IH]; intros Hnin; [reflexivity|].
  cbn in *. destruct (jsstring_eq_dec a k) as [->|Hne]; [tauto|].
  apply IH. tauto.
Qed.

Lemma Map_set_absent {V : Type} (m : Map V) (k : jsstring) (v : V) :
  ~ In k (map fst m) -> Map_set m k v = m ++ [(k, v)].
Proof.
  induction m as [|[a w] m IH]; intros Hnin; [reflexivity|].
  cbn in *. destruct (jsstring_eq_dec a k) as [->|Hne]; [tauto|].
  rewrite IH; tauto.
Qed.

Lemma Map_set_present {V : Type} (F : jsstring -> V)
    (ks : list jsstring) (k : jsstring) (v : V) :
  NoDup ks -> In k ks ->
  Map_set (map (fun k' => (k', F k')) ks) k v
  = map (fun k' => (k', if jsstring_eq_dec k' k then v else F k')) ks.
Proof.
  induction ks as [|a ks IH]; intros Hnd Hin; [contradiction|].
  inversion Hnd as [|? ? Ha Hnd']; subst.
  cbn. destruct (jsstring_eq_dec a k) as [->|Hne].
  - f_equal. apply map_ext_in. intros k' Hk'.
    destruct (jsstring_eq_dec k' k) as [->|]; [contradiction | reflexivity].
  - f_equal. destruct Hin as [->|Hin]; [congruence | now apply IH].
Qed.

Lemma map_fst_keyed {V : Type} (F : jsstring -> V) (ks : list jsstring) :
  map fst (map (fun k' => (k', F k')) ks) = ks.
Proof. rewrite map_map. cbn. apply map_id. Qed.

(** *** Grouping *)

Lemma has_key_true (k : jsstring) (j : Journey) :
  has_key k j = true <-> routeKeyOf j = k.
Proof.
  unfold has_key. destruct (jsstring_eq_dec (routeKeyOf j) k); split;
    congruence.
Qed.

Lemma filter_has_key_nil (k : jsstring) (js : list Journey) :
  ~ In k (map routeKeyOf js) -> filter (has_key k) js = [].
Proof.
  induction js as [|j js IH]; intros Hnin; [reflexivity|].
  cbn in *. destruct (has_key k j) eqn:E.
  - apply has_key_true in E. tauto.
  - apply IH. tauto.
Qed.

Lemma has_key_false (k : jsstring) (j : Journey) :
  has_key k j = false <-> routeKeyOf j <> k.
Proof.
  unfold has_key. destruct (jsstring_eq_dec (routeKeyOf j) k); split;
    congruence.
Qed.

Lemma filter_has_key_snoc (k : jsstring) (js : list Journey)
    (j : Journey) :
  filter (has_key k) (js ++ [j])
  = if jsstring_eq_dec k (routeKeyOf j)
    then filter (has_key k) js ++ [j]
    else filter (has_key k) js.
Proof.
  rewrite filter_app. cbn [filter].
  destruct (jsstring_eq_dec k (routeKeyOf j)) as [->|Hne].
  - now replace (has_key (routeKeyOf j) j) with true
      by (symmetry; now apply has_key_true).
  - replace (has_key k j) with false
      by (symmetry; apply has_key_false; congruence).
    apply app_nil_r.
Qed.

Lemma addToRouteMap_grouped (js : list Journey) (j : Journey) :
  addToRouteMap (grouped js) j = grouped (js ++ [j]).
Proof.
  unfold addToRouteMap, grouped.
  rewrite map_app. cbn [map]. rewrite first_seen_snoc.
  set (ks := first_seen (map routeKeyOf js)).
  destruct (in_dec jsstring_eq_dec (routeKeyOf j) (map routeKeyOf js))
    as [Hin|Hnin].
  - assert (Hks : In (routeKeyOf j) ks) by now apply first_seen_In.
    rewrite Map_get_present by exact Hks.
    rewrite Map_set_present by (apply first_seen_NoDup || exact Hks).
    apply map_ext. intros k'. f_equal.
    rewrite filter_has_key_snoc.
    destruct (jsstring_eq_dec k' (routeKeyOf j)) as [->|Hne];
      reflexivity.
  - assert (Hks : ~ In (routeKeyOf j) ks)
      by (unfold ks; now rewrite first_seen_In).
    rewrite Map_get_absent by now rewrite map_fst_keyed.
    rewrite Map_set_absent by now rewrite map_fst_keyed.
    rewrite map_app. cbn [map]. f_equal.
    + apply map_ext_in. intros k' Hk'. f_equal.
      rewrite filter_has_key_snoc.
      destruct (jsstring_eq_dec k' (routeKeyOf j)) as [->|Hne];
        [contradiction | reflexivity].
    + rewrite filter_has_key_snoc, filter_has_key_nil by exact Hnin.
      now destruct (jsstring_eq_dec (routeKeyOf j) (routeKeyOf j)).
Qed.

(** The code groups as [grouped] says. *)
Lemma groupByRoute_grouped (js : list Journey) :
  groupByRoute js = grouped js.
Proof.
  induction js as [|j js IH] using rev_ind; [reflexivity|].
  unfold groupByRoute in *. rewrite fold_left_app. cbn [fold_left].
  rewrite IH. apply addToRouteMap_grouped.
Qed.

(** *** Building the route groups *)

Lemma traverse_Forall2 {A B : Type} (f : A -> option B) (l : list A) :
  (forall x, In x l -> exists y, f x = Some y) ->
  exists ys,
    traverse f l = Some ys /\ Forall2 (fun x y => f x = Some y) l ys.
Proof.
  induction l as [|x l IH]; intros H.
  - exists []. split; [reflexivity | constructor].
  - destruct (H x (or_introl eq_refl)) as [y Hy].
    destruct IH as [ys [Hys HF]]; [intros; apply H; now right|].
    exists (y :: ys). cbn. rewrite Hy, Hys.
    split; [reflexivity | now constructor].
Qed.

Lemma Forall2_In_r {A B : Type} (R : A -> B -> Prop) (l : list A)
    (ys : list B) (y : B) :
  Forall2 R l ys -> In y ys -> exists x, In x l /\ R x y.
Proof.
  induction 1 as [|x y' l ys HR _ IH]; intros Hin; [contradiction|].
  destruct Hin as [<- | Hin].
  - exists x. split; [now left | exact HR].
  - destruct (IH Hin) as [x' [Hx' HR']].
    exists x'. split; [now right | exact HR'].
Qed.

(** Every entry of the route map holds the journeys of its key, and at
    least one. *)
Lemma grouped_entry (js : list Journey) (k : jsstring)
    (members : list Journey) :
  In (k, members) (grouped js) ->
  members = filter (has_key k) js
  /\ exists first rest, members = first :: rest.
Proof.
  unfold grouped. intros H. apply in_map_iff in H.
  destruct H as [k0 [E Hk0]]. injection E as -> <-.
  split; [reflexivity|].
  apply first_seen_In, in_map_iff in Hk0.
  destruct Hk0 as [j [Hj Hin]].
  assert (Hf : In j (filter (has_key k) js)).
  { apply filter_In. split; [exact Hin | now apply has_key_true]. }
  destruct (filter (has_key k) js) as [|first rest];
    [contradiction | now exists first, rest].
Qed.

(** [processCsvData] never throws: it returns the journeys of the rows
    and one route group per entry of the route map. *)
Lemma processCsvData_groups (rows : list TransportRow) :
  exists groups,
    processCsvData rows
    = Some (mkProcessed (map_indexed toJourney 0 rows) groups)
    /\ Forall2 (fun entry g => toRouteGroup entry = Some g)
               (grouped (map_indexed toJourney 0 rows)) groups.
Proof.
  unfold processCsvData. rewrite groupByRoute_grouped.
  destruct (traverse_Forall2 toRouteGroup
              (grouped (map_indexed toJourney 0 rows)))
    as [groups [Ht HF]].
  - intros [k members] Hin.
    destruct (grouped_entry _ _ _ Hin) as [_ [first [rest ->]]].
    cbn. eexists. reflexivity.
  - exists groups. now rewrite Ht.
Qed.

Lemma TransportMode_eqb_eq (a b : TransportMode) :
  TransportMode_eqb a b = true <-> a = b.
Proof. destruct a, b; cbn; split; congruence. Qed.

(** [legs.some(leg => leg.mode === m)] says whether a leg has mode [m]. *)
Lemma some_mode (m : TransportMode) (ls : list JourneyLeg) :
  existsb (fun leg => TransportMode_eqb (mode leg) m) ls = true
  <-> Exists (fun leg => mode leg = m) ls.
Proof.
  rewrite existsb_exists, Exists_exists.
  split; intros [leg [Hin H]]; exists leg; split; try assumption;
    now apply TransportMode_eqb_eq.
Qed.

Lemma toJourney_mode_weight (row : TransportRow) (index : nat) :
  let j := toJourney row index in
  weight j = weightKg row
  /\ (Exists (fun leg => mode leg = Road) (legs j) ->
      totalRoadWeight j = weightKg row)
  /\ (~ Exists (fun leg => mode leg = Road) (legs j) ->
      totalRoadWeight j = of_Z 0)
  /\ (Exists (fun leg => mode leg = Sea) (legs j) ->
      totalSeaWeight j = weightKg row)
  /\ (~ Exists (fun leg => mode leg = Sea) (legs j) ->
      totalSeaWeight j = of_Z 0).
Proof.
  cbn zeta. unfold toJourney.
  cbn [weight legs totalRoadWeight totalSeaWeight].
  set (ls := calculateJourneyLegs _ _).
  split; [reflexivity|].
  pose proof (some_mode Road ls) as HR. pose proof (some_mode Sea ls) as HS.
  destruct (existsb (fun leg => TransportMode_eqb (mode leg) Road) ls);
    destruct (existsb (fun leg => TransportMode_eqb (mode leg) Sea) ls);
    repeat split; intros H; try reflexivity;
    try (exfalso; apply H; now (apply HR || apply HS));
    try (apply HR in H; discriminate); try (apply HS in H; discriminate).
Qed.

(** C1: every row gives one journey, at the row's position, whose
    [totalRoadWeight] is the row's [weightKg] if one of its legs has mode
    Road and 0 otherwise, and whose [totalSeaWeight] is [weightKg] if one
    of its legs has mode Sea and 0 otherwise; a journey of legs Road, Sea,
    Road with weight [w] counts exactly [w] for Road and [w] for Sea. *)
Theorem journey_weight_once_per_mode (rows : list TransportRow) :
  exists out,
    processCsvData rows = Some out
    /\ List.length (out_journeys out) = List.length rows
    /\ forall i row,
         nth_error rows i = Some row ->
         exists j,
           nth_error (out_journeys out) i = Some j
           /\ weight j = weightKg row
           /\ (Exists (fun leg => mode leg = Road) (legs j) ->
               totalRoadWeight j = weightKg row)
           /\ (~ Exists (fun leg => mode leg = Road) (legs j) ->
               totalRoadWeight j = of_Z 0)
           /\ (Exists (fun leg => mode leg = Sea) (legs j) ->
               totalSeaWeight j = weightKg row)
           /\ (~ Exists (fun leg => mode leg = Sea) (legs j) ->
               totalSeaWeight j = of_Z 0)
           /\ (map mode (legs j) = [Road; Sea; Road] ->
               totalRoadWeight j = weightKg row
               /\ totalSeaWeight j = weightKg row).
Proof.
  destruct (processCsvData_groups rows) as [groups [Hp _]].
  eexists. split; [exact Hp|]. cbn [out_journeys].
  split; [apply map_indexed_length|].
  intros i row Hrow.
  exists (toJourney row (0 + i)).
  split; [now apply map_indexed_nth|].
  destruct (toJourney_mode_weight row (0 + i))
    as [Hw [HR1 [HR0 [HS1 HS0]]]].
  repeat split; try assumption.
  - apply HR1. apply Exists_exists.
    destruct (legs (toJourney row (0 + i))) as [|l1 ls];
      [discriminate|].
    exists l1. split; [now left | now injection H].
  - apply HS1. apply Exists_exists.
    destruct (legs (toJourney row (0 + i))) as [|l1 [|l2 ls]];
      try discriminate.
    exists l2. split; [right; now left | now injection H].
Qed.

Definition long_route_row : TransportRow :=
  mkRow (lit "LongOriginNameThatProducesLargeDistance") (lit "Country1")
        (lit "LongDestinationNameThatProducesLargeDistance")
        (lit "Country2") (of_Z 1000).

Lemma journey_weight_once_per_mode_witness :
  exists j,
    weight j = of_Z 1000
    /\ map mode (legs j) = [Road; Sea; Road]
    /\ totalRoadWeight j = of_Z 1000 /\ totalSeaWeight j = of_Z 1000.
Proof.
  destruct (journey_weight_once_per_mode [long_route_row])
    as [out [Hp [_ H]]].
  destruct (H 0%nat long_route_row eq_refl)
    as [j [Hj [Hw [_ [_ [_ [_ H3]]]]]]].
  vm_compute in Hp. injection Hp as <-.
  vm_compute in Hj. injection Hj as <-.
  exists (toJourney long_route_row 0).
  split; [reflexivity|]. split; [reflexivity|].
  apply H3. reflexivity.
Defined.

Lemma toRouteGroup_cons (k : jsstring) (first : Journey)
    (rest : list Journey) :
  toRouteGroup (k, first :: rest)
  = Some {| routeKey := k;
            group_origin := route_origin (route first);
            group_destination := route_destination (route first);
            group_distance := distance first;
            timesTaken := of_nat (List.length (first :: rest));
            totalDistance :=
              mul (distance first) (of_nat (List.length (first :: rest)));
            modes := getTransportModesString (legs first);
            group_totalWeight := total weight (first :: rest);
            group_totalRoadWeight := total totalRoadWeight (first :: rest);
            group_totalSeaWeight := total totalSeaWeight (first :: rest);
            journeys := first :: rest |}.
Proof. reflexivity. Qed.


Definition london_paris_rows : list TransportRow :=
  [ mkRow (lit "London") (lit "UK") (lit "Paris") (lit "FR") (of_Z 100);
    mkRow (lit "London") (lit "UK") (lit "Paris") (lit "FR") (of_Z 200) ].





Lemma toRouteGroup_entries (entries : Map (list Journey))
    (groups : list RouteGroup) :
  Forall2 (fun entry g => toRouteGroup entry = Some g) entries groups ->
  map (fun g => (routeKey g, journeys g)) groups = entries.
Proof.
  induction 1 as [|[k members] g entries groups Hto _ IH];
    [reflexivity|].
  cbn [map]. rewrite IH. f_equal.
  unfold toRouteGroup in Hto.
  destruct (nth_error members 0); [|discriminate].
  now injection Hto as <-.
Qed.

(** The route groups are the entries of [grouped]: two journeys of a run
    are in the same group exactly when their route keys are the same
    string, the groups stand in first-seen order of the keys, and the
    members of a group in input order. *)
Lemma routeGroups_grouped (rows : list TransportRow) :
  exists out,
    processCsvData rows = Some out
    /\ map (fun g => (routeKey g, journeys g)) (out_routeGroups out)
       = grouped (out_journeys out).
Proof.
  destruct (processCsvData_groups rows) as [groups [Hp HF]].
  eexists. split; [exact Hp|]. cbn [out_routeGroups out_journeys].
  now apply toRouteGroup_entries.
Qed.

(** The sum [fakeDistance] takes over a string. *)
Definition unit_sum (s : jsstring) : Z :=
  DistanceFacts.Zsum
    (map DistanceFacts.first_unit (DistanceFacts.codePoints s)).

Lemma unit_sum_app (a b : jsstring) :
  DistanceFacts.joins_surrogates a b = false ->
  unit_sum (a ++ b) = (unit_sum a + unit_sum b)%Z.
Proof.
  intros H. unfold unit_sum.
  now rewrite DistanceFacts.codePoints_app, map_app,
    DistanceFacts.Zsum_app.
Qed.

(** The arrow of a route key joins with nothing: the sum over the key is
    that of the origin, the arrow and the destination. *)
Lemma unit_sum_key (o d : jsstring) :
  unit_sum (o ++ arrow ++ d) = (unit_sum o + 8658 + unit_sum d)%Z.
Proof.
  rewrite unit_sum_app by reflexivity.
  change (arrow ++ d) with ([32; 8594]%N ++ 32%N :: d).
  rewrite unit_sum_app by reflexivity.
  change (32%N :: d) with ([32%N] ++ d).
  rewrite unit_sum_app
    by (destruct d; [reflexivity | apply andb_false_r]).
  change (unit_sum [32; 8594]%N) with 8626%Z.
  change (unit_sum [32%N]) with 32%Z. ring.
Qed.

Lemma legs_modes (d w w' : number) :
  map mode (calculateJourneyLegs d w)
  = map mode (calculateJourneyLegs d w').
Proof. unfold calculateJourneyLegs. now destruct (gt d (of_Z 1500)). Qed.

(** Two rows of the same route key have the same distance and the same
    modes string, unless in one of them origin and destination join into
    a surrogate pair: so they have for text that is well-formed UTF-16. *)
Lemma same_key_same_distance (r1 r2 : TransportRow) (i1 i2 : nat) :
  DistanceFacts.valid_string (origin r1) ->
  DistanceFacts.valid_string (destination r1) ->
  DistanceFacts.valid_string (origin r2) ->
  DistanceFacts.valid_string (destination r2) ->
  DistanceFacts.joins_surrogates (origin r1) (destination r1) = false ->
  DistanceFacts.joins_surrogates (origin r2) (destination r2) = false ->
  routeKeyOf (toJourney r1 i1) = routeKeyOf (toJourney r2 i2) ->
  distance (toJourney r1 i1) = distance (toJourney r2 i2)
  /\ getTransportModesString (legs (toJourney r1 i1))
     = getTransportModesString (legs (toJourney r2 i2)).
Proof.
  intros Ho1 Hd1 Ho2 Hd2 Hj1 Hj2 Hkey.
  unfold routeKeyOf, toJourney in Hkey.
  cbn [route route_origin route_destination] in Hkey.
  assert (Hsum : unit_sum (origin r1 ++ destination r1)
                 = unit_sum (origin r2 ++ destination r2)).
  { apply (f_equal unit_sum) in Hkey. rewrite !unit_sum_key in Hkey.
    rewrite !unit_sum_app by assumption. lia. }
  assert (Hdist : fakeDistance (origin r1) (destination r1)
                  = fakeDistance (origin r2) (destination r2)).
  { rewrite !DistanceFacts.fakeDistance_first_units by assumption.
    unfold DistanceFacts.first_unit_distance.
    fold (unit_sum (origin r1 ++ destination r1)).
    fold (unit_sum (origin r2 ++ destination r2)).
    now rewrite Hsum. }
  unfold toJourney. cbn [distance legs]. split; [exact Hdist|].
  unfold getTransportModesString. rewrite Hdist.
  rewrite <- !(map_map mode mode_name).
  now rewrite (legs_modes _ (weightKg r1) (weightKg r2)).
Qed.

(** Two rows of different routes whose route keys are the same string,
    ["A → B → C"]. *)
Definition colliding_rows : list TransportRow :=
  [ mkRow (lit "A" ++ arrow ++ lit "B") [] (lit "C") [] (of_Z 100);
    mkRow (lit "A") [] (lit "B" ++ arrow ++ lit "C") [] (of_Z 200) ].

Definition route_pair (j : Journey) : jsstring * jsstring :=
  (route_origin (route j), route_destination (route j)).

(** C5 at a failing input: the rows ("A → B", "C") and ("A", "B → C")
    are different ordered pairs, yet the aggregator returns one route
    group, under the first row's route, with both journeys as members. *)
Theorem colliding_route_keys_one_group :
  option_map
    (fun out =>
       map (fun g => (routeKey g, (group_origin g, group_destination g),
                      map route_pair (journeys g), timesTaken g))
           (out_routeGroups out))
    (processCsvData colliding_rows)
  = Some [ (lit "A" ++ arrow ++ lit "B" ++ arrow ++ lit "C",
            (lit "A" ++ arrow ++ lit "B", lit "C"),
            [ (lit "A" ++ arrow ++ lit "B", lit "C");
              (lit "A", lit "B" ++ arrow ++ lit "C") ],
            of_Z 2) ]
  /\ (lit "A" ++ arrow ++ lit "B", lit "C")
     <> (lit "A", lit "B" ++ arrow ++ lit "C").
Proof. split; [reflexivity | discriminate]. Qed.

(** A row read from text: origin and destination are well-formed. *)
Definition text_row (row : TransportRow) : Prop :=
  DistanceFacts.well_formed (origin row)
  /\ DistanceFacts.well_formed (destination row).

(** C8: for rows read from text (origin and destination well-formed
    UTF-16, as every decoded file gives them), every member of every
    route group of the run has the group's [distance], and its legs
    print as the group's [modes]: taking both from the first member
    loses nothing. *)
Theorem group_members_share_distance (rows : list TransportRow) :
  Forall text_row rows ->
  exists out,
    processCsvData rows = Some out
    /\ forall g,
         In g (out_routeGroups out) ->
         forall j,
           In j (journeys g) ->
           routeKeyOf j = routeKey g
           /\ distance j = group_distance g
           /\ getTransportModesString (legs j) = modes g.
Proof.
  intros Htext.
  destruct (processCsvData_groups rows) as [groups [Hp HF]].
  eexists. split; [exact Hp|]. cbn [out_routeGroups].
  intros g Hg j Hj.
  destruct (Forall2_In_r _ _ _ _ HF Hg) as [[k members] [Hin Hto]].
  destruct (grouped_entry _ _ _ Hin) as [Hmem [first [rest E]]].
  rewrite E in Hto, Hmem. clear E Hin.
  rewrite toRouteGroup_cons in Hto. injection Hto as <-.
  cbn [journeys routeKey group_distance modes] in *.
  assert (Hrun : forall m,
            In m (first :: rest) ->
            routeKeyOf m = k
            /\ exists row i, text_row row /\ m = toJourney row i).
  { intros m Hm. rewrite Hmem in Hm. apply filter_In in Hm.
    destruct Hm as [Hm Hk]. split; [now apply has_key_true|].
    destruct (map_indexed_In _ _ _ _ Hm) as [row [i [Hrow ->]]].
    exists row, i. split; [|reflexivity].
    now apply (proj1 (Forall_forall _ _) Htext). }
  destruct (Hrun j Hj) as [Hkj [r1 [i1 [[[Ho1 Hp1] [Hd1 _]] ->]]]].
  destruct (Hrun first (or_introl eq_refl))
    as [Hkf [r2 [i2 [[[Ho2 Hp2] [Hd2 _]] ->]]]].
  split; [exact Hkj|].
  apply same_key_same_distance; try assumption.
  - now apply DistanceFacts.paired_no_join.
  - now apply DistanceFacts.paired_no_join.
  - congruence.
Qed.

Lemma group_members_share_distance_witness :
  exists g j1 j2,
    option_map out_routeGroups (processCsvData london_paris_rows)
    = Some [g]
    /\ journeys g = [j1; j2]
    /\ group_distance g = of_Z 1229
    /\ distance j1 = group_distance g
    /\ distance j2 = group_distance g
    /\ getTransportModesString (legs j2) = modes g.
Proof.
  assert (Htext : Forall text_row london_paris_rows)
    by (repeat constructor; vm_compute; repeat constructor).
  destruct (group_members_share_distance london_paris_rows Htext)
    as [out [Hp H]].
  rewrite Hp. vm_compute in Hp. injection Hp as <-.
  cbn [option_map out_routeGroups] in *.
  match type of H with
  | forall g, In g [?g0] -> _ =>
      pose proof (H g0 (or_introl eq_refl)) as Hg;
      exists g0
  end.
  cbn [journeys] in Hg.
  match type of Hg with
  | forall j, In j [?a; ?b] -> _ =>
      exists a, b;
      destruct (Hg a (or_introl eq_refl)) as [_ [Ha _]];
      destruct (Hg b (or_intror (or_introl eq_refl))) as [_ [Hb Hm]]
  end.
  split; [reflexivity|]. split; [reflexivity|].
  split; [reflexivity|]. split; [exact Ha|]. split; [exact Hb | exact Hm].
Defined.

(** Two rows of the same route key whose origin and destination split a
    surrogate pair differently: in the first the origin ends with the high
    surrogate and the destination is the low one.  Neither row is text:
    each holds a surrogate on its own. *)
Definition split_surrogate_rows : list TransportRow :=
  [ mkRow (lit "dddd" ++ arrow ++ [55357]%N) [] [56832]%N [] (of_Z 100);
    mkRow (lit "dddd") [] ([55357]%N ++ arrow ++ [56832]%N) []
          (of_Z 200) ].

(** Text is needed for the members of a group to agree: called with the
    two rows above, the aggregator returns one route group, whose
    [distance] 1515 and [modes] "Road + Sea + Road" are the first
    member's, while the second member has distance 1347 and the single
    mode "Road". *)
Lemma split_surrogate_group_members_differ :
  Forall (fun row => ~ text_row row) split_surrogate_rows
  /\ option_map
       (fun out =>
          map (fun g => (group_distance g, modes g,
                         map distance (journeys g),
                         map (fun j => getTransportModesString (legs j))
                             (journeys g)))
              (out_routeGroups out))
       (processCsvData split_surrogate_rows)
     = Some [ (of_Z 1515, lit "Road + Sea + Road",
               [of_Z 1515; of_Z 1347],
               [lit "Road + Sea + Road"; lit "Road"]) ].
Proof.
  split; [|reflexivity].
  repeat constructor; intros [[_ H] [_ H']]; discriminate.
Qed.

End AggregatorFacts.

(** ** The row validator *)

Module SchemaFacts.
Import JS Types Schema NumberFacts.

(** The spec's InvalidWeight kind: an issue on [weightKg]. *)
Definition InvalidWeight (issue : ZodIssue) : Prop :=
  path issue = f_weightKg.

(** A number strictly greater than 0. *)
Definition positive_number (v : jsval) : bool :=
  match v with
  | VNumber n => gt n (of_Z 0)
  | _ => false
  end.

(** A finite number strictly greater than 0, as the spec words the
    weights that pass. *)
Definition finite_positive_number (v : jsval) : bool :=
  match v with
  | VNumber n => isFinite n && gt n (of_Z 0)
  | _ => false
  end.

Definition infinity_row : RawRow :=
  mkRaw (VString (lit "London")) VUndefined
        (VString (lit "Dubai")) VUndefined
        (VString (lit "Infinity")).

Definition weight_row (w : jsval) : RawRow :=
  mkRaw (VString (lit "London")) VUndefined
        (VString (lit "Dubai")) VUndefined w.

Lemma le_gt_zero (x : number) :
  isNaN x = false -> le x (of_Z 0) = negb (gt x (of_Z 0)).
Proof.
  destruct x; cbn; try reflexivity; [|discriminate].
  intros _. now rewrite negb_involutive.
Qed.

Lemma isNaN_Math_abs (x : number) : isNaN (Math_abs x) = isNaN x.
Proof. now destruct x. Qed.

(** The two outcomes of [weightKg]: the absolute value of what
    [parseFloat(String(val))] read, when that is a number and not zero;
    one issue on [weightKg] otherwise. *)
Lemma parse_weightKg_cases (val : jsval) :
  (positive_number (preprocessWeight val) = true
   /\ isNaN (parseFloat_String val) = false
   /\ parse_weightKg val = OK (Math_abs (parseFloat_String val)))
  \/ (positive_number (preprocessWeight val) = false
      /\ exists issue,
           parse_weightKg val = INVALID [issue] /\ InvalidWeight issue).
Proof.
  unfold parse_weightKg, preprocess, preprocessWeight.
  destruct (isNaN (parseFloat_String val)) eqn:E.
  - right. destruct val; cbn in *;
      try (split; [reflexivity | eexists; split; reflexivity]).
    rewrite E. destruct n; try discriminate.
    split; [reflexivity | eexists; split; reflexivity].
  - cbn [number_positive positive_number].
    rewrite isNaN_Math_abs, E.
    rewrite le_gt_zero by now rewrite isNaN_Math_abs.
    destruct (gt (Math_abs (parseFloat_String val)) (of_Z 0)); cbn.
    + left. repeat split.
    + right. split; [reflexivity | eexists; split; reflexivity].
Qed.

(** [safeParse] succeeds exactly when every property does. *)
Lemma safeParse_OK (raw : RawRow) (row : TransportRow) :
  safeParse raw = OK row <->
  parse_origin (raw_origin raw) = OK (origin row)
  /\ parse_originCountry (raw_originCountry raw) = OK (originCountry row)
  /\ parse_destination (raw_destination raw) = OK (destination row)
  /\ parse_destinationCountry (raw_destinationCountry raw)
     = OK (destinationCountry row)
  /\ parse_weightKg (raw_weightKg raw) = OK (weightKg row).
Proof.
  unfold safeParse. destruct row as [o oc d dc w]. cbn [origin
    originCountry destination destinationCountry weightKg].
  destruct (parse_origin _), (parse_originCountry _),
    (parse_destination _), (parse_destinationCountry _),
    (parse_weightKg _); split;
    try discriminate;
    try (intros [? [? [? [? ?]]]]; discriminate);
    try (intros [? [? [? [? ?]]]]; congruence).
  intros H. injection H as -> -> -> -> ->. repeat split.
Qed.

(** When it fails it reports the issues of all the properties, in the
    order of the schema. *)
Lemma safeParse_INVALID (raw : RawRow) (issues : list ZodIssue) :
  safeParse raw = INVALID issues ->
  issues
  = issues_of (parse_origin (raw_origin raw))
    ++ issues_of (parse_originCountry (raw_originCountry raw))
    ++ issues_of (parse_destination (raw_destination raw))
    ++ issues_of (parse_destinationCountry (raw_destinationCountry raw))
    ++ issues_of (parse_weightKg (raw_weightKg raw)).
Proof.
  unfold safeParse.
  destruct (parse_origin _), (parse_originCountry _),
    (parse_destination _), (parse_destinationCountry _),
    (parse_weightKg _); intros H; try discriminate;
    now injection H as <-.
Qed.

(** A property that fails makes the row fail. *)
Lemma safeParse_fails (raw : RawRow) :
  (exists i, parse_origin (raw_origin raw) = INVALID i)
  \/ (exists i, parse_originCountry (raw_originCountry raw) = INVALID i)
  \/ (exists i, parse_destination (raw_destination raw) = INVALID i)
  \/ (exists i, parse_destinationCountry (raw_destinationCountry raw)
                = INVALID i)
  \/ (exists i, parse_weightKg (raw_weightKg raw) = INVALID i) ->
  exists issues, safeParse raw = INVALID issues.
Proof.
  unfold safeParse.
  intros [[i H]|[[i H]|[[i H]|[[i H]|[i H]]]]]; rewrite H;
    destruct (parse_origin _), (parse_originCountry _),
      (parse_destination _), (parse_destinationCountry _),
      (parse_weightKg _); try discriminate; eexists; reflexivity.
Qed.

(** The weight of a row that passes: the absolute value of what was
    read, and greater than 0. *)
Lemma safeParse_weight (raw : RawRow) (row : TransportRow) :
  safeParse raw = OK row ->
  isNaN (parseFloat_String (raw_weightKg raw)) = false
  /\ weightKg row = Math_abs (parseFloat_String (raw_weightKg raw))
  /\ gt (weightKg row) (of_Z 0) = true.
Proof.
  intros H. apply safeParse_OK in H.
  destruct H as [_ [_ [_ [_ Hw]]]].
  destruct (parse_weightKg_cases (raw_weightKg raw))
    as [[Hpos [Hnan Hok]] | [_ [issue [Hbad _]]]];
    [|rewrite Hbad in Hw; discriminate].
  rewrite Hok in Hw. injection Hw as Hw. rewrite <- Hw.
  split; [exact Hnan|]. split; [reflexivity|].
  unfold preprocessWeight in Hpos. now rewrite Hnan in Hpos.
Qed.

(** C7, as stated, fails: the weight "Infinity" is coerced to the number
    Infinity, which is not finite, and the row is accepted with it. *)
Lemma infinite_weight_accepted :
  finite_positive_number (preprocessWeight (raw_weightKg infinity_row))
  = false
  /\ safeParse infinity_row
     = OK (mkRow (lit "London") [] (lit "Dubai") [] PosInf)
  /\ ~ (exists issues,
          safeParse infinity_row = INVALID issues
          /\ Exists InvalidWeight issues).
Proof.
  split; [reflexivity|]. split; [reflexivity|].
  intros [issues [H _]]. discriminate H.
Qed.

(** C7, amended: when [parseFloat(String(weightKg))] is a number, the
    weight is coerced to its absolute value, which is the validated
    [weightKg] of a row that passes ("-500" gives 500); a row whose
    coerced weight is not a number strictly greater than 0 (exactly 0, a
    string that is no number, null, undefined, NaN) fails with an issue
    on [weightKg]; finiteness is not asked for. *)
Theorem weight_validation (raw : RawRow) :
  (isNaN (parseFloat_String (raw_weightKg raw)) = false ->
   preprocessWeight (raw_weightKg raw)
   = VNumber (Math_abs (parseFloat_String (raw_weightKg raw))))
  /\ (forall row,
        safeParse raw = OK row ->
        isNaN (parseFloat_String (raw_weightKg raw)) = false
        /\ weightKg row = Math_abs (parseFloat_String (raw_weightKg raw))
        /\ gt (weightKg row) (of_Z 0) = true)
  /\ (positive_number (preprocessWeight (raw_weightKg raw)) = false ->
      exists issues,
        safeParse raw = INVALID issues /\ Exists InvalidWeight issues)
  /\ safeParse (weight_row (VString (lit "-500")))
     = OK (mkRow (lit "London") [] (lit "Dubai") [] (of_Z 500))
  /\ safeParse (weight_row (VNumber (of_Z 0)))
     = INVALID [mkIssue (too_small "Weight must be a positive number")
                        f_weightKg]
  /\ safeParse (weight_row (VString (lit "not a number")))
     = INVALID [mkIssue (invalid_type t_number t_string) f_weightKg]
  /\ safeParse (weight_row VNull)
     = INVALID [mkIssue (invalid_type t_number t_null) f_weightKg]
  /\ safeParse (weight_row VUndefined)
     = INVALID [mkIssue (invalid_type t_number t_undefined) f_weightKg].
Proof.
  split; [|split; [|split; [|repeat split]]].
  - intros H. unfold preprocessWeight. now rewrite H.
  - intros row H. now apply safeParse_weight.
  - intros Hpos.
    destruct (parse_weightKg_cases (raw_weightKg raw))
      as [[Hpos' _] | [_ [issue [Hbad Hkind]]]]; [congruence|].
    destruct (safeParse_fails raw) as [issues Hs];
      [do 4 right; eexists; exact Hbad|].
    exists issues. split; [exact Hs|].
    rewrite (safeParse_INVALID _ _ Hs), Hbad. cbn [issues_of].
    rewrite !Exists_app. do 4 right. now constructor.
Qed.

(** [parseFloat] at the ends of the range: a literal below half the least
    subnormal reads as 0, which the schema refuses as not positive; one
    above the greatest finite value reads as Infinity; 0.1 reads as the
    binary64 value next to it. *)
Lemma parseFloat_rounds :
  parseFloat (lit "1e-400") = of_Z 0
  /\ safeParse (weight_row (VString (lit "1e-400")))
     = INVALID [mkIssue (too_small "Weight must be a positive number")
                        f_weightKg]
  /\ parseFloat (lit "1e400") = PosInf
  /\ parseFloat (lit "0.1")
     = Fin (3602879701896397 # 36028797018963968).
Proof. vm_compute. repeat split. Qed.

(** The binary64 value nearest to 789.12. *)
Definition weight_789_12 : number :=
  Fin (6941172925684777 # 8796093022208).

Lemma weight_validation_witness :
  preprocessWeight (VString (lit "-789.12")) = VNumber weight_789_12
  /\ weightKg (mkRow (lit "London") [] (lit "Dubai") [] weight_789_12)
     = Math_abs (parseFloat (lit "-789.12"))
  /\ exists issues,
       safeParse (weight_row (VNumber (of_Z 0))) = INVALID issues
       /\ Exists InvalidWeight issues.
Proof.
  destruct (weight_validation (weight_row (VString (lit "-789.12"))))
    as [H1 [H2 _]].
  destruct (weight_validation (weight_row (VNumber (of_Z 0))))
    as [_ [_ [H3 _]]].
  split; [|split].
  - pose proof (H1 eq_refl) as E.
    cbn [raw_weightKg weight_row] in E. rewrite E. reflexivity.
  - apply (H2 (mkRow (lit "London") [] (lit "Dubai") [] weight_789_12)
              eq_refl).
  - apply H3. reflexivity.
Defined.

End SchemaFacts.

(** ** The validation loop *)

Module CsvParserFacts.
Import JS Types Schema CsvParser SchemaFacts.

(** What one record adds to [validRows], and to [errors] when it stands
    at [index]: both depend on that record alone. *)
Definition valid_of_row (raw : RawRow) : list TransportRow :=
  match safeParse raw with
  | OK data => [data]
  | INVALID _ => []
  end.

Definition error_of_row (index : nat) (raw : RawRow)
  : list ValidationError :=
  match safeParse raw with
  | OK _ => []
  | INVALID issues => [mkValidationError (index + 1) issues]
  end.

Definition valid_of (data : list RawRow) : list TransportRow :=
  flat_map valid_of_row data.

Fixpoint errors_from (index : nat) (data : list RawRow)
  : list ValidationError :=
  match data with
  | [] => []
  | raw :: rest => error_of_row index raw ++ errors_from (S index) rest
  end.

(** The issues of every property of a record, in the order of the
    schema. *)
Definition field_issues (raw : RawRow) : list ZodIssue :=
  issues_of (parse_origin (raw_origin raw))
  ++ issues_of (parse_originCountry (raw_originCountry raw))
  ++ issues_of (parse_destination (raw_destination raw))
  ++ issues_of (parse_destinationCountry (raw_destinationCountry raw))
  ++ issues_of (parse_weightKg (raw_weightKg raw)).

(** A record with an empty origin, a blank destination and a weight that
    is no number. *)
Definition all_invalid_row : RawRow :=
  mkRaw (VString []) VUndefined (VString (lit "   ")) VUndefined
        (VString (lit "invalid weight")).

Definition three_rows : list RawRow :=
  [ mkRaw (VString (lit "London")) VUndefined (VString (lit "Paris"))
          VUndefined (VNumber (of_Z 100));
    mkRaw (VString (lit "  ")) VUndefined (VString (lit "Rome"))
          VUndefined (VNumber (of_Z 300));
    mkRaw (VString (lit "Madrid")) VUndefined (VString (lit "Rome"))
          VUndefined (VString (lit "-500")) ].

Lemma forEach_validateRow (data : list RawRow) :
  forall index acc,
    forEach_indexed validateRow index data acc
    = {| validRows := validRows acc ++ valid_of data;
         res_errors := res_errors acc ++ errors_from index data |}.
Proof.
  induction data as [|raw data IH]; intros index acc.
  - cbn. rewrite !app_nil_r. now destruct acc.
  - cbn [forEach_indexed]. rewrite IH.
    unfold validateRow, valid_of. cbn [flat_map errors_from].
    unfold valid_of_row at 2, error_of_row.
    destruct (safeParse raw); cbn [validRows res_errors];
      now rewrite <- ?app_assoc, ?app_nil_r.
Qed.

Lemma validateRows_eq (data : list RawRow) :
  validateRows data
  = {| validRows := valid_of data; res_errors := errors_from 0 data |}.
Proof. unfold validateRows. now rewrite forEach_validateRow. Qed.

Lemma valid_of_app (pre post : list RawRow) :
  valid_of (pre ++ post) = valid_of pre ++ valid_of post.
Proof. apply flat_map_app. Qed.

Lemma errors_from_app (pre post : list RawRow) :
  forall index,
    errors_from index (pre ++ post)
    = errors_from index pre
      ++ errors_from (index + List.length pre) post.
Proof.
  induction pre as [|raw pre IH]; intros index; cbn.
  - now rewrite Nat.add_0_r.
  - rewrite IH, <- app_assoc. do 3 f_equal. lia.
Qed.

Lemma one_entry_of_row (index : nat) (raw : RawRow) :
  (List.length (valid_of_row raw)
   + List.length (error_of_row index raw))%nat = 1%nat.
Proof.
  unfold valid_of_row, error_of_row. now destruct (safeParse raw).
Qed.

Lemma one_entry_per_row (data : list RawRow) :
  forall index,
    (List.length (valid_of data)
     + List.length (errors_from index data))%nat
    = List.length data.
Proof.
  induction data as [|raw data IH]; intros index; [reflexivity|].
  unfold valid_of in *. cbn [flat_map errors_from].
  rewrite !length_app. specialize (IH (S index)).
  pose proof (one_entry_of_row index raw).
  change (List.length (raw :: data)) with (S (List.length data)). lia.
Qed.

Lemma errors_from_In (data : list RawRow) :
  forall index e,
    In e (errors_from index data) ->
    exists i raw,
      nth_error data i = Some raw
      /\ rowIndex e = (index + i + 1)%nat
      /\ safeParse raw = INVALID (errors e).
Proof.
  induction data as [|raw data IH]; intros index e H; [contradiction|].
  cbn [errors_from] in H. apply in_app_or in H. destruct H as [H|H].
  - unfold error_of_row in H. destruct (safeParse raw) eqn:E;
      [contradiction|].
    destruct H as [<-|[]]. exists 0%nat, raw. cbn.
    split; [reflexivity|]. split; [lia | exact E].
  - destruct (IH _ _ H) as [i [raw' [Hn [Hi Hs]]]].
    exists (S i), raw'. cbn. split; [exact Hn|]. split; [lia | exact Hs].
Qed.

(** A record with a property that fails is refused, with the issues of
    all its properties. *)
Lemma field_failure (raw : RawRow) :
  field_issues raw <> [] -> safeParse raw = INVALID (field_issues raw).
Proof.
  unfold field_issues, safeParse.
  destruct (parse_origin _), (parse_originCountry _),
    (parse_destination _), (parse_destinationCountry _),
    (parse_weightKg _); cbn [issues_of app]; intros H;
    try reflexivity.
  now contradiction H.
Qed.

(** C6: validation is row by row.  Every record adds exactly one entry,
    a validated row to [validRows] or a [ValidationError] to [errors],
    and what it adds depends on that record alone: around any record
    [raw], the entries of the records before and after it are the same
    whether [raw] passes or fails.  A record with a failing property adds
    no row; its error entry carries the issues of all its properties
    together, and the 1-based index of the record. *)
Theorem validateRows_partial_success (data : list RawRow) :
  validRows (validateRows data) = valid_of data
  /\ res_errors (validateRows data) = errors_from 0 data
  /\ (List.length (validRows (validateRows data))
      + List.length (res_errors (validateRows data)))%nat
     = List.length data
  /\ (forall pre raw post,
        data = pre ++ raw :: post ->
        (forall row,
           safeParse raw = OK row ->
           validRows (validateRows data)
           = valid_of pre ++ row :: valid_of post
           /\ res_errors (validateRows data)
              = errors_from 0 pre
                ++ errors_from (S (List.length pre)) post)
        /\ (forall issues,
              safeParse raw = INVALID issues ->
              validRows (validateRows data)
              = valid_of pre ++ valid_of post
              /\ res_errors (validateRows data)
                 = errors_from 0 pre
                   ++ mkValidationError (List.length pre + 1) issues
                   :: errors_from (S (List.length pre)) post
              /\ issues = field_issues raw))
  /\ (forall e,
        In e (res_errors (validateRows data)) ->
        exists i raw,
          nth_error data i = Some raw
          /\ rowIndex e = (i + 1)%nat
          /\ safeParse raw = INVALID (errors e)
          /\ errors e = field_issues raw)
  /\ (forall index raw,
        field_issues raw <> [] ->
        valid_of_row raw = []
        /\ error_of_row index raw
           = [mkValidationError (index + 1) (field_issues raw)])
  /\ field_issues all_invalid_row
     = [ mkIssue (too_small "Origin is required") f_origin;
         mkIssue (too_small "Destination is required") f_destination;
         mkIssue (invalid_type t_number t_string) f_weightKg ].
Proof.
  rewrite validateRows_eq. cbn [validRows res_errors].
  split; [reflexivity|]. split; [reflexivity|].
  split; [apply one_entry_per_row|].
  split; [|split; [|split; [|reflexivity]]].
  - intros pre raw post ->.
    rewrite valid_of_app, errors_from_app.
    change (valid_of (raw :: post))
      with (valid_of_row raw ++ valid_of post).
    cbn [errors_from Nat.add].
    unfold valid_of_row, error_of_row.
    split.
    + intros row ->. split; reflexivity.
    + intros issues H. rewrite H. cbn [app].
      split; [reflexivity|]. split; [reflexivity|].
      now apply safeParse_INVALID.
  - intros e He.
    destruct (errors_from_In _ _ _ He) as [i [raw [Hn [Hi Hs]]]].
    exists i, raw. repeat split; try assumption.
    now apply safeParse_INVALID.
  - intros index raw H. unfold valid_of_row, error_of_row.
    now rewrite (field_failure raw H).
Qed.

Lemma validateRows_partial_success_witness :
  validRows (validateRows three_rows)
  = [ mkRow (lit "London") [] (lit "Paris") [] (of_Z 100);
      mkRow (lit "Madrid") [] (lit "Rome") [] (of_Z 500) ]
  /\ res_errors (validateRows three_rows)
     = [ mkValidationError 2
           [mkIssue (too_small "Origin is required") f_origin] ].
Proof.
  destruct (validateRows_partial_success three_rows)
    as [_ [_ [_ [H _]]]].
  destruct (H [nth 0 three_rows all_invalid_row]
              (nth 1 three_rows all_invalid_row)
              [nth 2 three_rows all_invalid_row] eq_refl) as [_ Hbad].
  destruct (Hbad [mkIssue (too_small "Origin is required") f_origin]
                 eq_refl) as [Hv [He _]].
  split; [rewrite Hv | rewrite He]; reflexivity.
Defined.

End CsvParserFacts.

(** ** Validator and aggregator together *)

Module PipelineFacts.
Import JS Types DistanceCalculator DataAggregator Schema CsvParser.
Import NumberFacts AggregatorFacts SchemaFacts CsvParserFacts.

(** The scenario of the spec: one record from A to B weighing 500. *)
Definition short_route_data : list RawRow :=
  [ mkRaw (VString (lit "A")) VUndefined (VString (lit "B")) VUndefined
          (VNumber (of_Z 500)) ].

Lemma calculateJourneyLegs_first_Road (d w : number) :
  exists first rest,
    calculateJourneyLegs d w = first :: rest /\ mode first = Road.
Proof.
  unfold calculateJourneyLegs.
  destruct (gt d (of_Z 1500)); eexists; eexists; split; reflexivity.
Qed.

Lemma toJourney_uses_Road (row : TransportRow) (index : nat) :
  Exists (fun leg => mode leg = Road) (legs (toJourney row index)).
Proof.
  unfold toJourney. cbn [legs].
  destruct (calculateJourneyLegs_first_Road
              (fakeDistance (origin row) (destination row)) (weightKg row))
    as [first [rest [-> Hm]]].
  now constructor.
Qed.

Lemma validRows_positive (data : list RawRow) (row : TransportRow) :
  In row (validRows (validateRows data)) ->
  gt (weightKg row) (of_Z 0) = true.
Proof.
  rewrite validateRows_eq. cbn [validRows]. unfold valid_of.
  intros H. apply in_flat_map in H. destruct H as [raw [_ H]].
  unfold valid_of_row in H. destruct (safeParse raw) eqn:E;
    [|contradiction].
  destruct H as [<-|[]].
  now destruct (safeParse_weight raw _ E) as [_ [_ Hgt]].
Qed.

Lemma gt_zero_not_zero (x : number) :
  gt x (of_Z 0) = true -> ~ same_value x (of_Z 0).
Proof.
  destruct x; cbn; try tauto; try discriminate.
  intros H E. rewrite E in H. discriminate H.
Qed.

(** C10: the leg list is never empty and starts with a Road leg; so every
    journey of the aggregator has a Road leg and its [totalRoadWeight] is
    its [weight], which for the rows the validator lets through is
    greater than 0, never 0; [totalSeaWeight] can be 0, as for the record
    from A to B. *)
Theorem road_weight_is_weight :
  (forall d w,
     exists first rest,
       calculateJourneyLegs d w = first :: rest /\ mode first = Road)
  /\ (forall rows,
        exists out,
          processCsvData rows = Some out
          /\ forall j,
               In j (out_journeys out) ->
               Exists (fun leg => mode leg = Road) (legs j)
               /\ totalRoadWeight j = weight j)
  /\ (forall data,
        exists out,
          processCsvData (validRows (validateRows data)) = Some out
          /\ forall j,
               In j (out_journeys out) ->
               totalRoadWeight j = weight j
               /\ gt (totalRoadWeight j) (of_Z 0) = true
               /\ ~ same_value (totalRoadWeight j) (of_Z 0))
  /\ (exists out j,
        processCsvData (validRows (validateRows short_route_data))
        = Some out
        /\ out_journeys out = [j]
        /\ totalRoadWeight j = of_Z 500
        /\ totalSeaWeight j = of_Z 0).
Proof.
  assert (Hroad : forall rows j,
            In j (map_indexed toJourney 0 rows) ->
            Exists (fun leg => mode leg = Road) (legs j)
            /\ totalRoadWeight j = weight j
            /\ exists row, In row rows /\ weight j = weightKg row).
  { intros rows j Hj.
    destruct (map_indexed_In _ _ _ _ Hj) as [row [i [Hrow ->]]].
    pose proof (toJourney_uses_Road row i) as Hu.
    destruct (toJourney_mode_weight row i) as [Hw [HR _]].
    split; [exact Hu|]. split; [now rewrite Hw; apply HR|].
    exists row. now split. }
  split; [exact calculateJourneyLegs_first_Road|].
  split; [|split].
  - intros rows.
    destruct (processCsvData_groups rows) as [groups [Hp _]].
    eexists. split; [exact Hp|]. cbn [out_journeys].
    intros j Hj. destruct (Hroad rows j Hj) as [H1 [H2 _]]. now split.
  - intros data.
    destruct (processCsvData_groups (validRows (validateRows data)))
      as [groups [Hp _]].
    eexists. split; [exact Hp|]. cbn [out_journeys].
    intros j Hj.
    destruct (Hroad _ j Hj) as [_ [H2 [row [Hrow Hw]]]].
    assert (Hgt : gt (totalRoadWeight j) (of_Z 0) = true).
    { rewrite H2, Hw. now apply (validRows_positive data). }
    split; [exact H2|]. split; [exact Hgt|].
    now apply gt_zero_not_zero.
  - eexists. eexists. split; [reflexivity|]. cbn [out_journeys].
    split; [reflexivity|]. split; reflexivity.
Qed.

Lemma road_weight_is_weight_witness :
  exists j,
    totalRoadWeight j = of_Z 500
    /\ gt (totalRoadWeight j) (of_Z 0) = true
    /\ Exists (fun leg => mode leg = Road) (legs j).
Proof.
  destruct road_weight_is_weight as [_ [Hall [Hvalid _]]].
  destruct (Hall (validRows (validateRows short_route_data)))
    as [out [Hp H]].
  destruct (Hvalid short_route_data) as [out' [Hp' H']].
  rewrite Hp in Hp'. injection Hp' as <-.
  vm_compute in Hp. injection Hp as <-.
  match type of H with
  | forall j, In j (out_journeys {| out_journeys := [?j0];
                                    out_routeGroups := _ |}) -> _ =>
      exists j0;
      destruct (H j0 (or_introl eq_refl)) as [Hex _];
      destruct (H' j0 (or_introl eq_refl)) as [_ [Hgt _]]
  end.
  split; [reflexivity|]. split; [exact Hgt | exact Hex].
Defined.

End PipelineFacts.

(** * The callers of the pipeline *)

(** ** src/contexts/JourneyContextProvider.tsx *)

Module JourneyContextProvider.
Import JS Types DataAggregator.

(** The five [useState] cells of [JourneyProvider]. *)
Record State : Type := mkState {
  st_journeys : list Journey;
  st_routeGroups : list RouteGroup;
  selectedRoute : option jsstring;
  isLoading : bool;
  error : option jsstring
}.

Definition initialState : State :=
  {| st_journeys := []; st_routeGroups := []; selectedRoute := None;
     isLoading := false; error := None |}.

(** [!selectedRoute]: [null] and the empty string are falsy. *)
Definition falsy (s : option jsstring) : bool :=
  match s with
  | None | Some [] => true
  | Some (_ :: _) => false
  end.

Definition allRoutesChartData (st : State) : ChartData :=
  getGlobalWeightByMode (st_journeys st).

Definition selectedRouteChartData (st : State) : ChartData :=
  match selectedRoute st with
  | None => allRoutesChartData st
  | Some selected =>
      if falsy (Some selected) then allRoutesChartData st
      else
        match find (fun r => if jsstring_eq_dec (routeKey r) selected
                             then true else false)
                   (st_routeGroups st) with
        | Some route => getGlobalWeightByMode (journeys route)
        | None => allRoutesChartData st
        end
  end.

(** [loadJourneyData]: the state after its [try], [catch] and [finally].
    [thrown] is the message of the error [processCsvData] would throw. *)
Definition loadJourneyData (thrown : jsstring)
    (csvData : list TransportRow) (st : State) : State :=
  let loading :=
    {| st_journeys := st_journeys st;
       st_routeGroups := st_routeGroups st;
       selectedRoute := selectedRoute st;
       isLoading := true;
       error := None |} in
  let settled :=
    match processCsvData csvData with
    | Some out =>
        {| st_journeys := out_journeys out;
           st_routeGroups := out_routeGroups out;
           selectedRoute := None;
           isLoading := isLoading loading;
           error := error loading |}
    | None =>
        {| st_journeys := st_journeys loading;
           st_routeGroups := st_routeGroups loading;
           selectedRoute := selectedRoute loading;
           isLoading := isLoading loading;
           error := Some thrown |}
    end in
  {| st_journeys := st_journeys settled;
     st_routeGroups := st_routeGroups settled;
     selectedRoute := selectedRoute settled;
     isLoading := false;
     error := error settled |}.

Definition setSelectedRoute (routeKey : option jsstring) (st : State)
  : State :=
  {| st_journeys := st_journeys st;
     st_routeGroups := st_routeGroups st;
     selectedRoute := routeKey;
     isLoading := isLoading st;
     error := error st |}.

End JourneyContextProvider.

(** ** src/components/RouteTable.tsx *)

Module RouteTable.
Import JS Types JourneyContextProvider.

Inductive SortField : Type :=
| by_route | by_distance | by_timesTaken | by_totalDistance | by_modes.

Inductive SortDirection : Type := asc | desc.

Definition SortField_eqb (a b : SortField) : bool :=
  match a, b with
  | by_route, by_route | by_distance, by_distance
  | by_timesTaken, by_timesTaken | by_totalDistance, by_totalDistance
  | by_modes, by_modes => true
  | _, _ => false
  end.

(** The two [useState] cells of the table. *)
Record SortState : Type := mkSort {
  sortField : SortField;
  sortDirection : SortDirection
}.

Definition initialSort : SortState := mkSort by_route asc.

Definition handleSort (field : SortField) (s : SortState) : SortState :=
  if SortField_eqb (sortField s) field then
    mkSort (sortField s)
           (match sortDirection s with asc => desc | desc => asc end)
  else mkSort field asc.

(** [handleRowClick]: the new selection, and whether the page scrolls to
    the chart. *)
Definition handleRowClick (routeKey : jsstring) (st : State)
  : State * bool :=
  let newSelection :=
    match selectedRoute st with
    | Some selected =>
        if jsstring_eq_dec selected routeKey then None else Some routeKey
    | None => Some routeKey
    end in
  (setSelectedRoute newSelection st, negb (falsy newSelection)).

(** The arrows are U+2191 and U+2193. *)
Definition getSortIcon (field : SortField) (s : SortState)
  : option jsstring :=
  if negb (SortField_eqb (sortField s) field) then None
  else Some (match sortDirection s with
             | asc => [32; 8593]%N
             | desc => [32; 8595]%N
             end).

End RouteTable.

(** * Further properties *)

(** ** The leg calculator *)

Module DistanceExtras.
Import JS Types DistanceCalculator NumberFacts DistanceFacts.

(** The first code unit of an element of [spread]. *)
Definition head_unit (ch : jsstring) : Z :=
  match ch with
  | c :: _ => Z.of_N c
  | [] => 0%Z
  end.

(** The sum [fakeDistance] takes over a string, whatever its code
    units. *)
Definition unit_total (s : jsstring) : Z :=
  Zsum (map head_unit (spread s)).

Lemma unit_total_nonneg (s : jsstring) : (0 <= unit_total s)%Z.
Proof.
  unfold unit_total.
  induction s as [| c | c d rest IH1 IH2] using pair_induction.
  - cbn. lia.
  - cbn. lia.
  - rewrite spread_cons_cons.
    destruct (is_high_surrogate c && is_low_surrogate d);
      cbn [map Zsum head_unit]; lia.
Qed.

Lemma charCodeSum_total (s : jsstring) :
  forall z,
    fold_left (fun acc char => add acc (charCodeAt char 0))
              (spread s) (of_Z z)
    = of_Z (z + unit_total s).
Proof.
  unfold unit_total.
  induction s as [| c | c d rest IH1 IH2] using pair_induction; intros z.
  - cbn. now rewrite Z.add_0_r.
  - cbn [spread fold_left map Zsum head_unit].
    change (charCodeAt [c] 0) with (of_Z (Z.of_N c)).
    now rewrite add_of_Z, Z.add_0_r.
  - rewrite spread_cons_cons.
    destruct (is_high_surrogate c && is_low_surrogate d);
      cbn [fold_left map Zsum head_unit].
    + change (charCodeAt [c; d] 0) with (of_Z (Z.of_N c)).
      rewrite add_of_Z, IH1. f_equal. ring.
    + change (charCodeAt [c] 0) with (of_Z (Z.of_N c)).
      rewrite add_of_Z, IH2. f_equal. ring.
Qed.

(** [fakeDistance] in closed form, for every string. *)
Lemma fakeDistance_total (from to : jsstring) :
  fakeDistance from to
  = of_Z (unit_total (from ++ to) mod 3000 + 100).
Proof.
  unfold fakeDistance.
  rewrite charCodeSum_total, Z.add_0_l, Math_abs_of_Z.
  rewrite rem_3000_of_Z by apply Z.abs_nonneg.
  rewrite add_of_Z.
  now rewrite Z.abs_eq by apply unit_total_nonneg.
Qed.

(** Unless a surrogate pair forms at the junction, [spread] of a
    concatenation is that of its two parts. *)
Lemma spread_app (a b : jsstring) :
  joins_surrogates a b = false -> spread (a ++ b) = spread a ++ spread b.
Proof.
  induction a as [| c | c d rest IH1 IH2] using pair_induction;
    intros Hj.
  - reflexivity.
  - destruct b as [|d b]; [reflexivity|].
    cbn [app]. rewrite spread_cons_cons.
    cbn [joins_surrogates last] in Hj.
    now rewrite andb_comm, Hj.
  - cbn [app]. rewrite !spread_cons_cons.
    pose proof (joins_surrogates_tail _ _ _ Hj) as Hj2.
    pose proof (joins_surrogates_tail _ _ _ Hj2) as Hj1.
    destruct (is_high_surrogate c && is_low_surrogate d).
    + cbn [app]. now rewrite IH1.
    + cbn [app]. f_equal. now apply IH2.
Qed.

Lemma unit_total_app (a b : jsstring) :
  joins_surrogates a b = false ->
  unit_total (a ++ b) = (unit_total a + unit_total b)%Z.
Proof.
  intros H. unfold unit_total.
  now rewrite spread_app, map_app, Zsum_app.
Qed.

Lemma gt_of_Z (a b : Z) : gt (of_Z a) (of_Z b) = (b <? a)%Z.
Proof.
  unfold gt, lt, of_Z, inject_Z, Qle_bool; cbn [Qnum Qden].
  rewrite !Z.mul_1_r. symmetry. apply Z.ltb_antisym.
Qed.

Lemma le_of_Z (a b : Z) : le (of_Z a) (of_Z b) = (a <=? b)%Z.
Proof.
  unfold le, of_Z, inject_Z, Qle_bool; cbn [Qnum Qden].
  now rewrite !Z.mul_1_r.
Qed.

Lemma sub_of_Z (a b : Z) : sub (of_Z a) (of_Z b) = of_Z (a - b).
Proof.
  unfold sub, neg, add, of_Z, inject_Z, Qplus, Qopp; cbn [Qnum Qden].
  rewrite !Z.mul_1_r. reflexivity.
Qed.

(** X1: whatever the two strings, the distance is an integer from 100 to
    3099. *)
Theorem fakeDistance_range (from to : jsstring) :
  exists n : Z,
    fakeDistance from to = of_Z n /\ (100 <= n <= 3099)%Z.
Proof.
  exists (unit_total (from ++ to) mod 3000 + 100)%Z.
  split; [apply fakeDistance_total|].
  pose proof (Z.mod_pos_bound (unit_total (from ++ to)) 3000). lia.
Qed.

(** X2: the distance of a route and of the route back are the same,
    provided neither order of the two names joins a surrogate pair at the
    junction. *)
Theorem fakeDistance_swap (from to : jsstring) :
  joins_surrogates from to = false ->
  joins_surrogates to from = false ->
  fakeDistance from to = fakeDistance to from.
Proof.
  intros H1 H2. rewrite !fakeDistance_total.
  rewrite !unit_total_app by assumption.
  now rewrite (Z.add_comm (unit_total from)).
Qed.

Lemma fakeDistance_swap_witness :
  fakeDistance (lit "London") (lit "Dubai")
  = fakeDistance (lit "Dubai") (lit "London").
Proof.
  apply fakeDistance_swap; reflexivity.
Defined.

(** X3: the legs of a journey cover its distance: whatever the two
    place names, the distances of the legs that [calculateJourneyLegs]
    cuts out of their [fakeDistance], added leg after leg, give that
    distance again (all of them whole numbers below 3100, which add
    without rounding). *)
Theorem leg_distances_add_up (from to : jsstring) (w : number) :
  total leg_distance (calculateJourneyLegs (fakeDistance from to) w)
  = fakeDistance from to.
Proof.
  rewrite fakeDistance_total.
  set (n := (unit_total (from ++ to) mod 3000 + 100)%Z).
  unfold calculateJourneyLegs, total.
  rewrite gt_of_Z.
  destruct (1500 <? n)%Z;
    cbn [fold_left leg_distance]; rewrite ?sub_of_Z, !add_of_Z;
    f_equal; lia.
Qed.

End DistanceExtras.

From Stdlib Require Import Permutation Sorted.
From Stdlib Require DecimalNat DecimalFacts.

(** ** The aggregator *)

Module AggregatorExtras.
Import JS Types DistanceCalculator DataAggregator.
Import NumberFacts DistanceFacts AggregatorFacts DistanceExtras.

(** The route group [toRouteGroup] builds for a key and its members. *)
Definition groupOf (k : jsstring) (first : Journey) (rest : list Journey)
  : RouteGroup :=
  {| routeKey := k;
     group_origin := route_origin (route first);
     group_destination := route_destination (route first);
     group_distance := distance first;
     timesTaken := of_nat (List.length (first :: rest));
     totalDistance :=
       mul (distance first) (of_nat (List.length (first :: rest)));
     modes := getTransportModesString (legs first);
     group_totalWeight := total weight (first :: rest);
     group_totalRoadWeight := total totalRoadWeight (first :: rest);
     group_totalSeaWeight := total totalSeaWeight (first :: rest);
     journeys := first :: rest |}.

(** The journeys and the route groups of a run. *)
Lemma run_groups (rows : list TransportRow) :
  exists groups,
    processCsvData rows
    = Some (mkProcessed (map_indexed toJourney 0 rows) groups)
    /\ map (fun g => (routeKey g, journeys g)) groups
       = grouped (map_indexed toJourney 0 rows)
    /\ forall g,
         In g groups ->
         exists first rest,
           g = groupOf (routeKey g) first rest
           /\ first :: rest
              = filter (has_key (routeKey g))
                       (map_indexed toJourney 0 rows).
Proof.
  destruct (processCsvData_groups rows) as [groups [Hp HF]].
  exists groups. split; [exact Hp|].
  split; [now apply toRouteGroup_entries|].
  intros g Hg.
  destruct (Forall2_In_r _ _ _ _ HF Hg) as [[k members] [Hin Hto]].
  destruct (grouped_entry _ _ _ Hin) as [Hmem [first [rest E]]].
  rewrite E in Hto, Hmem. rewrite toRouteGroup_cons in Hto.
  injection Hto as <-. exists first, rest. now split.
Qed.

Lemma journey_of_run (rows : list TransportRow) (j : Journey) :
  In j (map_indexed toJourney 0 rows) ->
  exists row index, In row rows /\ j = toJourney row index.
Proof. apply map_indexed_In. Qed.

(** A journey is of one of two shapes, decided by its distance. *)
Lemma toJourney_shape (row : TransportRow) (index : nat) :
  let j := toJourney row index in
  Forall (fun leg =>
            leg_weight leg = weight j
            /\ gt (leg_distance leg) (of_Z 0) = true) (legs j)
  /\ ((le (distance j) (of_Z 1500) = true
       /\ legs j = [mkLeg Road (distance j) (weight j)]
       /\ totalSeaWeight j = of_Z 0
       /\ getTransportModesString (legs j) = lit "Road")
      \/ (gt (distance j) (of_Z 1500) = true
          /\ map mode (legs j) = [Road; Sea; Road]
          /\ totalSeaWeight j = weight j
          /\ getTransportModesString (legs j)
             = lit "Road + Sea + Road")).
Proof.
  cbn zeta. unfold toJourney.
  cbn [legs weight distance totalSeaWeight].
  rewrite fakeDistance_total.
  set (n := (unit_total (origin row ++ destination row) mod 3000 + 100)%Z).
  assert (Hn : (100 <= n <= 3099)%Z).
  { pose proof (Z.mod_pos_bound
                  (unit_total (origin row ++ destination row)) 3000).
    unfold n. lia. }
  unfold calculateJourneyLegs. rewrite !gt_of_Z.
  destruct (Z.ltb_spec 1500 n) as [Hlong|Hshort].
  - split.
    + repeat constructor; cbn [leg_distance];
        rewrite ?sub_of_Z, gt_of_Z; apply Z.ltb_lt; lia.
    + right. repeat split.
  - split.
    + repeat constructor. cbn [leg_distance]. rewrite gt_of_Z.
      apply Z.ltb_lt. lia.
    + left. rewrite le_of_Z. repeat split.
      apply Z.leb_le. lia.
Qed.

(** X4: every journey the aggregator builds is of one of two shapes,
    decided by its distance: up to 1500 a single Road leg over the whole
    distance, no sea weight and the modes string "Road"; above 1500 the
    legs Road, Sea, Road, the whole weight as sea weight and the modes
    string "Road + Sea + Road".  Every leg carries the weight of the
    journey and has a distance greater than 0. *)
Theorem journey_shape (rows : list TransportRow) :
  exists out,
    processCsvData rows = Some out
    /\ forall j,
         In j (out_journeys out) ->
         Forall (fun leg =>
                   leg_weight leg = weight j
                   /\ gt (leg_distance leg) (of_Z 0) = true) (legs j)
         /\ ((le (distance j) (of_Z 1500) = true
              /\ legs j = [mkLeg Road (distance j) (weight j)]
              /\ totalSeaWeight j = of_Z 0
              /\ getTransportModesString (legs j) = lit "Road")
             \/ (gt (distance j) (of_Z 1500) = true
                 /\ map mode (legs j) = [Road; Sea; Road]
                 /\ totalSeaWeight j = weight j
                 /\ getTransportModesString (legs j)
                    = lit "Road + Sea + Road")).
Proof.
  destruct (run_groups rows) as [groups [Hp _]].
  eexists. split; [exact Hp|]. cbn [out_journeys].
  intros j Hj. destruct (journey_of_run _ _ Hj) as [row [i [_ ->]]].
  apply toJourney_shape.
Qed.

Lemma journey_shape_witness :
  exists j,
    In j (map_indexed toJourney 0 [long_route_row])
    /\ distance j = of_Z 2520
    /\ map mode (legs j) = [Road; Sea; Road]
    /\ Forall (fun leg => gt (leg_distance leg) (of_Z 0) = true) (legs j).
Proof.
  destruct (journey_shape [long_route_row]) as [out [Hp H]].
  vm_compute in Hp. injection Hp as <-.
  exists (toJourney long_route_row 0).
  split; [now left|]. split; [reflexivity|]. split; [reflexivity|].
  destruct (H (toJourney long_route_row 0) (or_introl eq_refl))
    as [Hlegs _].
  eapply Forall_impl; [|exact Hlegs]. now intros leg [_ Hd].
Defined.

(** *** The identifiers of the journeys *)

Lemma lit_inj (s t : string) : lit s = lit t -> s = t.
Proof.
  unfold lit. intros H.
  rewrite <- (string_of_list_ascii_of_string s),
    <- (string_of_list_ascii_of_string t). f_equal.
  revert H. generalize (list_ascii_of_string t).
  induction (list_ascii_of_string s) as [|a l IH]; intros [|b l'] H;
    try discriminate; [reflexivity|].
  cbn in H. injection H as Hab Hl.
  f_equal; [|now apply IH].
  rewrite <- (ascii_N_embedding a), <- (ascii_N_embedding b).
  now rewrite Hab.
Qed.

Lemma to_uint_nonnil (n : nat) : Nat.to_uint n <> Decimal.Nil.
Proof.
  rewrite <- (DecimalNat.Unsigned.of_to n) at 1.
  rewrite DecimalNat.Unsigned.to_of. apply DecimalFacts.unorm_nonnil.
Qed.

(** Printing an index in decimal loses nothing. *)
Lemma string_of_index_inj (m n : nat) :
  string_of_index m = string_of_index n -> m = n.
Proof.
  unfold string_of_index. intros H. apply lit_inj in H.
  apply (f_equal NilZero.uint_of_string) in H.
  rewrite !NilZero.usu in H by apply to_uint_nonnil.
  injection H as H. now apply DecimalNat.Unsigned.to_uint_inj.
Qed.

Lemma map_indexed_ids (rows : list TransportRow) :
  forall k,
    map id (map_indexed toJourney k rows)
    = map (fun i => lit "journey-" ++ string_of_index i)
          (seq k (List.length rows)).
Proof.
  induction rows as [|row rows IH]; intros k; [reflexivity|].
  cbn [map_indexed map List.length seq]. now rewrite IH.
Qed.

(** X5: the journeys of a run have pairwise different identifiers, each
    "journey-" followed by the position of its row. *)
Theorem journey_ids_distinct (rows : list TransportRow) :
  exists out,
    processCsvData rows = Some out
    /\ NoDup (map id (out_journeys out))
    /\ map id (out_journeys out)
       = map (fun i => lit "journey-" ++ string_of_index i)
             (seq 0 (List.length rows)).
Proof.
  destruct (run_groups rows) as [groups [Hp _]].
  eexists. split; [exact Hp|]. cbn [out_journeys].
  rewrite map_indexed_ids. split; [|reflexivity].
  apply Finite.Injective_map_NoDup; [|apply seq_NoDup].
  intros m n H. apply app_inv_head in H.
  now apply string_of_index_inj.
Qed.

(** *** The route groups as a partition of the journeys *)

Lemma filter_split {A : Type} (f : A -> bool) (l : list A) :
  Permutation (filter f l ++ filter (fun x => negb (f x)) l) l.
Proof.
  induction l as [|x l IH]; cbn; [constructor|].
  destruct (f x); cbn.
  - now constructor.
  - apply Permutation_sym, Permutation_cons_app. now apply Permutation_sym.
Qed.

Lemma filter_filter_implied {A : Type} (f g : A -> bool) (l : list A) :
  (forall x, In x l -> f x = true -> g x = true) ->
  filter f (filter g l) = filter f l.
Proof.
  induction l as [|x l IH]; intros H; [reflexivity|].
  cbn. destruct (g x) eqn:Eg; cbn.
  - rewrite IH by (intros; apply H; [now right | assumption]).
    reflexivity.
  - destruct (f x) eqn:Ef.
    + rewrite (H x (or_introl eq_refl) Ef) in Eg. discriminate.
    + apply IH. intros; apply H; [now right | assumption].
Qed.

Lemma partition_by_keys (ks : list jsstring) :
  NoDup ks ->
  forall js,
    (forall j, In j js -> In (routeKeyOf j) ks) ->
    Permutation (concat (map (fun k => filter (has_key k) js) ks)) js.
Proof.
  induction 1 as [|k ks Hk Hnd IH]; intros js Hkeys.
  - destruct js as [|j js]; [constructor|].
    destruct (Hkeys j (or_introl eq_refl)).
  - cbn [map concat].
    set (others := filter (fun j => negb (has_key k j)) js).
    assert (E : map (fun k' => filter (has_key k') js) ks
                = map (fun k' => filter (has_key k') others) ks).
    { apply map_ext_in. intros k' Hk'. symmetry.
      apply filter_filter_implied. intros j _ Hj.
      apply has_key_true in Hj. apply negb_true_iff, has_key_false.
      intros Heq. apply Hk. congruence. }
    rewrite E.
    eapply Permutation_trans; [|apply (filter_split (has_key k))].
    apply Permutation_app_head. apply IH.
    intros j Hj. apply filter_In in Hj. destruct Hj as [Hj Hne].
    apply negb_true_iff, has_key_false in Hne.
    destruct (Hkeys j Hj) as [Heq|Hin]; [congruence | exact Hin].
Qed.

(** The members of the groups of a run are its journeys, each once, and
    the keys of the groups are pairwise different. *)
Lemma run_partition (rows : list TransportRow) (groups : list RouteGroup) :
  map (fun g => (routeKey g, journeys g)) groups
  = grouped (map_indexed toJourney 0 rows) ->
  NoDup (map routeKey groups)
  /\ Permutation (concat (map journeys groups))
                 (map_indexed toJourney 0 rows).
Proof.
  intros H.
  assert (Hk : map routeKey groups
               = first_seen (map routeKeyOf
                                 (map_indexed toJourney 0 rows))).
  { apply (f_equal (map fst)) in H. rewrite map_map in H.
    unfold grouped in H. rewrite map_fst_keyed in H. exact H. }
  assert (Hj : map journeys groups
               = map (fun k => filter (has_key k)
                                      (map_indexed toJourney 0 rows))
                     (first_seen (map routeKeyOf
                                      (map_indexed toJourney 0 rows)))).
  { apply (f_equal (map snd)) in H. rewrite map_map in H.
    unfold grouped in H. rewrite map_map in H. exact H. }
  split.
  - rewrite Hk. apply first_seen_NoDup.
  - rewrite Hj. apply partition_by_keys; [apply first_seen_NoDup|].
    intros j Hin. apply first_seen_In. now apply in_map.
Qed.

(** X6: the route groups partition the journeys of a run: the keys of the
    groups are pairwise different, every journey is a member of exactly
    one group, the members of a group all have the key of the group, and
    that key is the origin and destination of the group around the
    arrow. *)
Theorem groups_partition_journeys (rows : list TransportRow) :
  exists out,
    processCsvData rows = Some out
    /\ NoDup (map routeKey (out_routeGroups out))
    /\ Permutation (concat (map journeys (out_routeGroups out)))
                   (out_journeys out)
    /\ forall g,
         In g (out_routeGroups out) ->
         routeKey g = group_origin g ++ arrow ++ group_destination g
         /\ forall j, In j (journeys g) -> routeKeyOf j = routeKey g.
Proof.
  destruct (run_groups rows) as [groups [Hp [Hg Hall]]].
  eexists. split; [exact Hp|]. cbn [out_routeGroups out_journeys].
  destruct (run_partition rows groups Hg) as [Hnd Hperm].
  split; [exact Hnd|]. split; [exact Hperm|].
  intros g Hin. destruct (Hall g Hin) as [first [rest [Eg Hmem]]].
  assert (Hkey : forall j, In j (journeys g) -> routeKeyOf j = routeKey g).
  { intros j Hj. rewrite Eg in Hj. cbn [journeys groupOf] in Hj.
    rewrite Hmem in Hj. apply filter_In in Hj.
    now apply has_key_true. }
  split; [|exact Hkey].
  rewrite <- (Hkey first) by (rewrite Eg; now left).
  rewrite Eg. reflexivity.
Qed.

Lemma groups_partition_journeys_witness :
  exists g j,
    routeKey g = lit "London" ++ arrow ++ lit "Paris"
    /\ In j (journeys g)
    /\ routeKeyOf j = routeKey g.
Proof.
  destruct (groups_partition_journeys london_paris_rows)
    as [out [Hp [_ [_ H]]]].
  vm_compute in Hp. injection Hp as <-.
  match type of H with
  | forall g, In g (out_routeGroups
                      {| out_journeys := _;
                         out_routeGroups := [?g0] |}) -> _ =>
      exists g0, (toJourney (nth 0 london_paris_rows long_route_row) 0);
      destruct (H g0 (or_introl eq_refl)) as [_ Hk]
  end.
  split; [reflexivity|]. split; [now left|].
  apply Hk. now left.
Defined.

(** *** Totals *)

Lemma reduce_map {A B : Type} (f : B -> number) (g : A -> B)
    (l : list A) (start : number) :
  fold_left (fun acc x => add acc (f (g x))) l start
  = fold_left (fun acc y => add acc (f y)) (map g l) start.
Proof.
  revert start. induction l as [|x l IH]; intros start; [reflexivity|].
  cbn [map fold_left]. apply IH.
Qed.

(** Counts add without rounding: the lengths of some lists, added list
    after list, give the length of the lists put end to end. *)
Lemma count_lengths {A : Type} (ls : list (list A)) (start : nat) :
  fold_left (fun acc l => add acc (of_nat (List.length l))) ls
            (of_nat start)
  = of_nat (start + List.length (concat ls)).
Proof.
  revert start. induction ls as [|l ls IH]; intros start;
    cbn [fold_left concat].
  - cbn [List.length]. now rewrite Nat.add_0_r.
  - replace (add (of_nat start) (of_nat (List.length l)))
      with (of_nat (start + List.length l))
      by (unfold of_nat; now rewrite add_of_Z, Nat2Z.inj_add).
    rewrite IH, length_app. f_equal. lia.
Qed.

(** X7: grouping loses and adds no row: over the route groups of a run,
    the [timesTaken], added group after group, give the number of rows
    (whole numbers, which add without rounding). *)
Theorem times_taken_add_up (rows : list TransportRow) :
  exists out,
    processCsvData rows = Some out
    /\ total timesTaken (out_routeGroups out)
       = of_nat (List.length rows).
Proof.
  destruct (run_groups rows) as [groups [Hp [Hg Hall]]].
  eexists. split; [exact Hp|]. cbn [out_routeGroups].
  destruct (run_partition rows groups Hg) as [_ Hperm].
  rewrite (total_ext timesTaken
             (fun g => of_nat (List.length (journeys g)))).
  - unfold total.
    rewrite (reduce_map (fun l => of_nat (List.length l)) journeys).
    change (of_Z 0) with (of_nat 0).
    rewrite count_lengths, (Permutation_length Hperm).
    now rewrite map_indexed_length.
  - intros g Hin. now destruct (Hall g Hin) as [first [rest [-> _]]].
Qed.

Lemma toJourney_road_weight (row : TransportRow) (index : nat) :
  totalRoadWeight (toJourney row index) = weight (toJourney row index).
Proof.
  destruct (toJourney_mode_weight row index) as [Hw [HR _]].
  rewrite Hw. apply HR. apply PipelineFacts.toJourney_uses_Road.
Qed.



(** X9: the chart of one route is its table row rounded: over the members
    of a route group, [getGlobalWeightByMode] gives the group's
    [totalRoadWeight] and [totalSeaWeight], each rounded. *)
Theorem group_chart_is_rounded_totals (rows : list TransportRow) :
  exists out,
    processCsvData rows = Some out
    /\ forall g,
         In g (out_routeGroups out) ->
         getGlobalWeightByMode (journeys g)
         = {| road := Math_round (group_totalRoadWeight g);
              sea := Math_round (group_totalSeaWeight g) |}.
Proof.
  destruct (run_groups rows) as [groups [Hp [_ Hall]]].
  eexists. split; [exact Hp|]. cbn [out_routeGroups].
  intros g Hin. now destruct (Hall g Hin) as [first [rest [-> _]]].
Qed.

Lemma group_chart_is_rounded_totals_witness :
  exists g,
    routeKey g = lit "London" ++ arrow ++ lit "Paris"
    /\ getGlobalWeightByMode (journeys g)
       = {| road := of_Z 300; sea := of_Z 0 |}.
Proof.
  destruct (group_chart_is_rounded_totals london_paris_rows)
    as [out [Hp H]].
  vm_compute in Hp. injection Hp as <-.
  match type of H with
  | forall g, In g (out_routeGroups
                      {| out_journeys := _;
                         out_routeGroups := [?g0] |}) -> _ =>
      exists g0; split; [reflexivity|];
      rewrite (H g0 (or_introl eq_refl)); reflexivity
  end.
Defined.

(** X10: looking a route key up in the route map gives the journeys of
    that key, in input order, when some journey has it, and nothing
    otherwise. *)
Theorem routeMap_lookup (js : list Journey) (k : jsstring) :
  Map_get (groupByRoute js) k
  = if in_dec jsstring_eq_dec k (map routeKeyOf js)
    then Some (filter (has_key k) js)
    else None.
Proof.
  rewrite groupByRoute_grouped. unfold grouped.
  destruct (in_dec jsstring_eq_dec k (map routeKeyOf js)) as [Hin|Hnin].
  - apply (Map_get_present (fun k' => filter (has_key k') js)).
    now apply first_seen_In.
  - apply Map_get_absent. rewrite map_fst_keyed.
    now rewrite first_seen_In.
Qed.

End AggregatorExtras.

(** ** The row validator *)

Module SchemaExtras.
Import JS Types Schema NumberFacts SchemaFacts.

(** A string that does not start, or end, with white space. *)
Definition starts_clean (s : jsstring) : Prop :=
  match s with
  | c :: _ => is_whitespace c = false
  | [] => True
  end.

Definition ends_clean (s : jsstring) : Prop := starts_clean (rev s).

(** A validated row given back to the validator as a raw record. *)
Definition raw_of_row (row : TransportRow) : RawRow :=
  mkRaw (VString (origin row)) (VString (originCountry row))
        (VString (destination row)) (VString (destinationCountry row))
        (VNumber (weightKg row)).

Definition with_originCountry (v : jsval) (raw : RawRow) : RawRow :=
  mkRaw (raw_origin raw) v (raw_destination raw)
        (raw_destinationCountry raw) (raw_weightKg raw).

Definition with_destinationCountry (v : jsval) (raw : RawRow) : RawRow :=
  mkRaw (raw_origin raw) (raw_originCountry raw) (raw_destination raw)
        v (raw_weightKg raw).

(** The place of a property in the schema. *)
Definition field_rank (f : field) : nat :=
  match f with
  | f_origin => 0
  | f_originCountry => 1
  | f_destination => 2
  | f_destinationCountry => 3
  | f_weightKg => 4
  end.

(** *** [trim] *)

Lemma trimStart_starts_clean (s : jsstring) : starts_clean (trimStart s).
Proof.
  induction s as [|c s IH]; cbn; [exact I|].
  destruct (is_whitespace c) eqn:E; [exact IH | exact E].
Qed.

Lemma trimStart_clean (s : jsstring) : starts_clean s -> trimStart s = s.
Proof. destruct s as [|c s]; cbn; [reflexivity|]. now intros ->. Qed.

Lemma trimStart_snoc (l : jsstring) (c : code_unit) :
  is_whitespace c = false -> trimStart (l ++ [c]) = trimStart l ++ [c].
Proof.
  intros Hc. induction l as [|a l IH]; cbn.
  - now rewrite Hc.
  - destruct (is_whitespace a); [exact IH | reflexivity].
Qed.

Lemma trimEnd_ends_clean (s : jsstring) : ends_clean (trimEnd s).
Proof.
  unfold ends_clean, trimEnd. rewrite rev_involutive.
  apply trimStart_starts_clean.
Qed.

Lemma trimEnd_clean (s : jsstring) : ends_clean s -> trimEnd s = s.
Proof.
  unfold ends_clean, trimEnd. intros H.
  rewrite trimStart_clean by exact H. apply rev_involutive.
Qed.

Lemma trimEnd_cons (c : code_unit) (s : jsstring) :
  is_whitespace c = false -> trimEnd (c :: s) = c :: trimEnd s.
Proof.
  intros Hc. unfold trimEnd. cbn [rev].
  rewrite trimStart_snoc by exact Hc.
  now rewrite rev_app_distr.
Qed.

Lemma trimEnd_starts_clean (s : jsstring) :
  starts_clean s -> starts_clean (trimEnd s).
Proof.
  destruct s as [|c s]; [intros _; exact I|].
  cbn [starts_clean]. intros Hc. now rewrite trimEnd_cons.
Qed.

(** [trim] leaves no white space at either end, and changes nothing in a
    string that has none there. *)
Lemma trim_clean (s : jsstring) :
  starts_clean (trim s) /\ ends_clean (trim s).
Proof.
  unfold trim. split.
  - apply trimEnd_starts_clean, trimStart_starts_clean.
  - apply trimEnd_ends_clean.
Qed.

Lemma trim_fixed (s : jsstring) :
  starts_clean s -> ends_clean s -> trim s = s.
Proof.
  intros Hs He. unfold trim.
  rewrite (trimStart_clean s Hs). now apply trimEnd_clean.
Qed.

Lemma trim_idempotent (s : jsstring) : trim (trim s) = trim s.
Proof. destruct (trim_clean s). now apply trim_fixed. Qed.

(** *** What each property parser returns *)

Lemma string_trim_min1_OK (p : field) (m : string) (v : jsval)
    (s : jsstring) :
  string_trim_min1 p m v = OK s ->
  exists raw, v = VString raw /\ s = trim raw /\ s <> [].
Proof.
  unfold string_trim_min1, string_trim.
  destruct v; try discriminate.
  destruct (trim s0) as [|c t] eqn:E; cbn; [discriminate|].
  intros H. injection H as <-. exists s0. now rewrite E.
Qed.

Lemma string_trim_default_OK (p : field) (v : jsval) (s : jsstring) :
  string_trim_default p v = OK s ->
  (v = VUndefined /\ s = []) \/ (exists raw, v = VString raw /\ s = trim raw).
Proof.
  unfold string_trim_default, string_trim.
  destruct v; try discriminate; intros H; injection H as <-.
  - left. now split.
  - right. now eexists.
Qed.

Lemma string_trim_min1_issues (p : field) (m : string) (v : jsval) :
  match string_trim_min1 p m v with
  | OK _ => True
  | INVALID issues => exists issue, issues = [issue] /\ path issue = p
  end.
Proof.
  unfold string_trim_min1, string_trim.
  destruct v; try (eexists; split; reflexivity).
  destruct (List.length (trim s) <? 1)%nat; [|exact I].
  eexists; split; reflexivity.
Qed.

Lemma string_trim_default_issues (p : field) (v : jsval) :
  match string_trim_default p v with
  | OK _ => True
  | INVALID issues => exists issue, issues = [issue] /\ path issue = p
  end.
Proof.
  unfold string_trim_default, string_trim.
  destruct v; try exact I; eexists; split; reflexivity.
Qed.

Lemma parse_weightKg_issues (v : jsval) :
  match parse_weightKg v with
  | OK _ => True
  | INVALID issues =>
      exists issue, issues = [issue] /\ path issue = f_weightKg
  end.
Proof.
  destruct (parse_weightKg_cases v)
    as [[_ [_ ->]] | [_ [issue [-> Hp]]]]; [exact I|].
  now exists issue.
Qed.

Lemma Math_abs_idempotent (x : number) :
  Math_abs (Math_abs x) = Math_abs x.
Proof.
  destruct x as [[n d] | | |]; try reflexivity.
  cbn. now rewrite Z.abs_idemp.
Qed.

(** X11: a row that passes is clean: origin and destination are not
    empty, none of the four strings starts or ends with white space, and
    the weight is greater than 0. *)
Theorem validated_row_is_clean (raw : RawRow) (row : TransportRow) :
  safeParse raw = OK row ->
  origin row <> [] /\ destination row <> []
  /\ starts_clean (origin row) /\ ends_clean (origin row)
  /\ starts_clean (destination row) /\ ends_clean (destination row)
  /\ starts_clean (originCountry row) /\ ends_clean (originCountry row)
  /\ starts_clean (destinationCountry row)
  /\ ends_clean (destinationCountry row)
  /\ gt (weightKg row) (of_Z 0) = true.
Proof.
  intros H. pose proof (safeParse_weight _ _ H) as [_ [_ Hw]].
  apply safeParse_OK in H. destruct H as [Ho [Hoc [Hd [Hdc _]]]].
  apply string_trim_min1_OK in Ho, Hd.
  destruct Ho as [o [_ [Eo Hone]]]. destruct Hd as [d [_ [Ed Hdne]]].
  assert (Hc : forall p v s,
            string_trim_default p v = OK s ->
            starts_clean s /\ ends_clean s).
  { intros p v s Hs.
    destruct (string_trim_default_OK _ _ _ Hs)
      as [[_ ->] | [r [_ ->]]]; [now split | apply trim_clean]. }
  destruct (Hc _ _ _ Hoc). destruct (Hc _ _ _ Hdc).
  rewrite Eo, Ed in *.
  destruct (trim_clean o). destruct (trim_clean d).
  repeat split; assumption.
Qed.

Lemma validated_row_is_clean_witness :
  origin (mkRow (lit "Madrid") [] (lit "Rome") [] (of_Z 500)) <> []
  /\ gt (of_Z 500) (of_Z 0) = true.
Proof.
  destruct (validated_row_is_clean
              (mkRaw (VString (lit "  Madrid ")) VUndefined
                     (VString (lit "Rome")) VUndefined
                     (VString (lit "-500")))
              (mkRow (lit "Madrid") [] (lit "Rome") [] (of_Z 500))
              eq_refl) as [Ho [_ [_ [_ [_ [_ [_ [_ [_ [_ Hw]]]]]]]]]].
  split; [exact Ho | exact Hw].
Defined.

(** X12: validating twice changes nothing: a row that passed, given back
    to the schema as a record, passes again and comes out the same. *)
Theorem validation_idempotent (raw : RawRow) (row : TransportRow) :
  safeParse raw = OK row -> safeParse (raw_of_row row) = OK row.
Proof.
  intros H. pose proof (safeParse_weight _ _ H) as [_ [Habs Hw]].
  apply safeParse_OK in H. destruct H as [Ho [Hoc [Hd [Hdc _]]]].
  apply safeParse_OK. unfold raw_of_row.
  cbn [raw_origin raw_originCountry raw_destination
       raw_destinationCountry raw_weightKg].
  assert (Hmin : forall p m v s,
            string_trim_min1 p m v = OK s ->
            string_trim_min1 p m (VString s) = OK s).
  { intros p m v s Hs.
    destruct (string_trim_min1_OK _ _ _ _ Hs) as [r [_ [-> Hne]]].
    unfold string_trim_min1, string_trim. rewrite trim_idempotent.
    destruct (trim r); [contradiction | reflexivity]. }
  assert (Hdef : forall p v s,
            string_trim_default p v = OK s ->
            string_trim_default p (VString s) = OK s).
  { intros p v s Hs. unfold string_trim_default, string_trim.
    destruct (string_trim_default_OK _ _ _ Hs)
      as [[_ ->] | [r [_ ->]]]; [reflexivity|].
    now rewrite trim_idempotent. }
  split; [exact (Hmin _ _ _ _ Ho)|].
  split; [exact (Hdef _ _ _ Hoc)|].
  split; [exact (Hmin _ _ _ _ Hd)|].
  split; [exact (Hdef _ _ _ Hdc)|].
  unfold parse_weightKg, preprocess, preprocessWeight.
  cbn [parseFloat_String].
  assert (Hnan : isNaN (weightKg row) = false)
    by (destruct (weightKg row); try reflexivity; discriminate Hw).
  rewrite Hnan. cbn [number_positive].
  rewrite isNaN_Math_abs, Hnan.
  rewrite Habs, Math_abs_idempotent, <- Habs.
  rewrite le_gt_zero by exact Hnan. now rewrite Hw.
Qed.

Lemma validation_idempotent_witness :
  safeParse (raw_of_row (mkRow (lit "Madrid") [] (lit "Rome") []
                               (of_Z 500)))
  = OK (mkRow (lit "Madrid") [] (lit "Rome") [] (of_Z 500)).
Proof.
  apply (validation_idempotent
           (mkRaw (VString (lit "  Madrid ")) VUndefined
                  (VString (lit "Rome")) VUndefined
                  (VString (lit "-500")))).
  reflexivity.
Defined.

(** X13: a country may be absent but not null: when a record passes, the
    same record without its origin country passes with the empty string
    for it, and the same record with an origin country that is neither a
    string nor absent (null, as an empty cell is read, or a number) is
    refused with the one issue "expected string" on [originCountry];
    likewise for the destination country. *)
Theorem country_absent_or_string (raw : RawRow) (row : TransportRow) :
  safeParse raw = OK row ->
  safeParse (with_originCountry VUndefined raw)
  = OK (mkRow (origin row) [] (destination row)
              (destinationCountry row) (weightKg row))
  /\ safeParse (with_destinationCountry VUndefined raw)
     = OK (mkRow (origin row) (originCountry row) (destination row)
                 [] (weightKg row))
  /\ forall v,
       getParsedType v <> t_string ->
       getParsedType v <> t_undefined ->
       safeParse (with_originCountry v raw)
       = INVALID [mkIssue (invalid_type t_string (getParsedType v))
                          f_originCountry]
       /\ safeParse (with_destinationCountry v raw)
          = INVALID [mkIssue (invalid_type t_string (getParsedType v))
                             f_destinationCountry].
Proof.
  intros H. apply safeParse_OK in H.
  destruct H as [Ho [Hoc [Hd [Hdc Hw]]]].
  split; [|split].
  - apply safeParse_OK. now repeat split.
  - apply safeParse_OK. now repeat split.
  - intros v Hs Hu.
    assert (Hbad : forall p,
              string_trim_default p v
              = INVALID [mkIssue (invalid_type t_string (getParsedType v))
                                 p]).
    { intros p. destruct v; try reflexivity; cbn in Hs, Hu; congruence. }
    unfold safeParse, with_originCountry, with_destinationCountry.
    cbn [raw_origin raw_originCountry raw_destination
         raw_destinationCountry raw_weightKg].
    unfold parse_originCountry, parse_destinationCountry in *.
    rewrite !Hbad, Ho, Hoc, Hd, Hdc, Hw. split; reflexivity.
Qed.

Lemma country_absent_or_string_witness :
  safeParse (mkRaw (VString (lit "Madrid")) VNull (VString (lit "Rome"))
                   VUndefined (VNumber (of_Z 500)))
  = INVALID [mkIssue (invalid_type t_string t_null) f_originCountry].
Proof.
  destruct (country_absent_or_string
              (mkRaw (VString (lit "Madrid")) VUndefined
                     (VString (lit "Rome")) VUndefined
                     (VNumber (of_Z 500)))
              (mkRow (lit "Madrid") [] (lit "Rome") [] (of_Z 500))
              eq_refl) as [_ [_ H]].
  destruct (H VNull) as [H1 _]; [discriminate | discriminate |].
  exact H1.
Defined.

(** The issues of a record: at most one for each property, in the order
    of the schema. *)
Lemma field_issues_ranked (raw : RawRow) :
  StronglySorted (fun a b => (field_rank a < field_rank b)%nat)
                 (map path (CsvParserFacts.field_issues raw)).
Proof.
  unfold CsvParserFacts.field_issues.
  pose proof (string_trim_min1_issues f_origin "Origin is required"
                (raw_origin raw)) as H1.
  pose proof (string_trim_default_issues f_originCountry
                (raw_originCountry raw)) as H2.
  pose proof (string_trim_min1_issues f_destination
                "Destination is required" (raw_destination raw)) as H3.
  pose proof (string_trim_default_issues f_destinationCountry
                (raw_destinationCountry raw)) as H4.
  pose proof (parse_weightKg_issues (raw_weightKg raw)) as H5.
  unfold parse_origin, parse_originCountry, parse_destination,
    parse_destinationCountry.
  destruct (string_trim_min1 f_origin _ _);
    [|destruct H1 as [? [-> ?]]];
    (destruct (string_trim_default f_originCountry _);
     [|destruct H2 as [? [-> ?]]]);
    (destruct (string_trim_min1 f_destination _ _);
     [|destruct H3 as [? [-> ?]]]);
    (destruct (string_trim_default f_destinationCountry _);
     [|destruct H4 as [? [-> ?]]]);
    (destruct (parse_weightKg _);
     [|destruct H5 as [? [-> ?]]]);
    cbn [issues_of app map];
    repeat match goal with H : path _ = _ |- _ => rewrite H; clear H end;
    repeat (constructor; cbn [field_rank]; try lia).
Qed.

End SchemaExtras.

(** ** The validation loop *)

Module CsvParserExtras.
Import JS Types Schema CsvParser SchemaFacts CsvParserFacts SchemaExtras.

(** A record that is refused has an issue, and at most five. *)
Lemma refused_issues_count (raw : RawRow) (issues : list ZodIssue) :
  safeParse raw = INVALID issues ->
  (1 <= List.length issues <= 5)%nat.
Proof.
  intros H. rewrite (safeParse_INVALID _ _ H).
  unfold safeParse in H.
  pose proof (string_trim_min1_issues f_origin "Origin is required"
                (raw_origin raw)) as H1.
  pose proof (string_trim_default_issues f_originCountry
                (raw_originCountry raw)) as H2.
  pose proof (string_trim_min1_issues f_destination
                "Destination is required" (raw_destination raw)) as H3.
  pose proof (string_trim_default_issues f_destinationCountry
                (raw_destinationCountry raw)) as H4.
  pose proof (parse_weightKg_issues (raw_weightKg raw)) as H5.
  unfold parse_origin, parse_originCountry, parse_destination,
    parse_destinationCountry in *.
  destruct (string_trim_min1 f_origin _ _);
    [|destruct H1 as [? [-> ?]]];
    (destruct (string_trim_default f_originCountry _);
     [|destruct H2 as [? [-> ?]]]);
    (destruct (string_trim_min1 f_destination _ _);
     [|destruct H3 as [? [-> ?]]]);
    (destruct (string_trim_default f_destinationCountry _);
     [|destruct H4 as [? [-> ?]]]);
    (destruct (parse_weightKg _);
     [|destruct H5 as [? [-> ?]]]);
    try discriminate H; cbn [issues_of app List.length]; lia.
Qed.

Lemma errors_from_indices (data : list RawRow) :
  forall index,
    StronglySorted Nat.lt (map rowIndex (errors_from index data))
    /\ Forall (fun i => (index < i <= index + List.length data)%nat)
              (map rowIndex (errors_from index data)).
Proof.
  induction data as [|raw data IH]; intros index.
  - split; constructor.
  - destruct (IH (S index)) as [Hs Hf].
    assert (Hf' : Forall (fun i => (index + 1 < i
                                    <= index + List.length (raw :: data))%nat)
                         (map rowIndex (errors_from (S index) data))).
    { eapply Forall_impl; [|exact Hf]. cbn [List.length]. intros; lia. }
    cbn [errors_from]. unfold error_of_row.
    destruct (safeParse raw); cbn [app map rowIndex].
    + split; [exact Hs|].
      eapply Forall_impl; [|exact Hf']. intros; cbn beta in *; lia.
    + split.
      * constructor; [exact Hs|].
        eapply Forall_impl; [|exact Hf']. intros; cbn beta in *.
        unfold Nat.lt. lia.
      * constructor; [cbn [List.length]; lia|].
        eapply Forall_impl; [|exact Hf']. intros; cbn beta in *; lia.
Qed.

(** X14: the error list is in row order and each entry is well formed:
    the row numbers increase strictly and lie between 1 and the number of
    records; an entry holds between one and five issues, at most one for
    each property, in the order of the schema. *)
Theorem error_entries_well_formed (data : list RawRow) :
  StronglySorted Nat.lt (map rowIndex (res_errors (validateRows data)))
  /\ forall e,
       In e (res_errors (validateRows data)) ->
       (1 <= rowIndex e <= List.length data)%nat
       /\ (1 <= List.length (errors e) <= 5)%nat
       /\ StronglySorted (fun a b => (field_rank a < field_rank b)%nat)
                         (map path (errors e)).
Proof.
  rewrite validateRows_eq. cbn [res_errors].
  destruct (errors_from_indices data 0) as [Hs Hf].
  split; [exact Hs|]. intros e He.
  split.
  - rewrite Forall_forall in Hf.
    specialize (Hf (rowIndex e) (in_map rowIndex _ _ He)). lia.
  - destruct (errors_from_In _ _ _ He) as [i [raw [_ [_ Hp]]]].
    split; [now apply (refused_issues_count raw)|].
    rewrite (safeParse_INVALID _ _ Hp). apply field_issues_ranked.
Qed.

Lemma error_entries_well_formed_witness :
  exists e,
    In e (res_errors (validateRows three_rows))
    /\ rowIndex e = 2%nat
    /\ (1 <= List.length (errors e) <= 5)%nat.
Proof.
  destruct (error_entries_well_formed three_rows) as [_ H].
  exists (mkValidationError 2
            [mkIssue (too_small "Origin is required") f_origin]).
  assert (Hin : In (mkValidationError 2
                      [mkIssue (too_small "Origin is required") f_origin])
                   (res_errors (validateRows three_rows)))
    by (vm_compute; now left).
  split; [exact Hin|]. split; [reflexivity|].
  now destruct (H _ Hin) as [_ [Hn _]].
Defined.

Lemma valid_of_nil (data : list RawRow) :
  valid_of data = [] <->
  forall raw, In raw data -> exists issues, safeParse raw = INVALID issues.
Proof.
  unfold valid_of. induction data as [|r data IH]; cbn [flat_map].
  - split; [intros _ raw [] | reflexivity].
  - unfold valid_of_row at 1. split.
    + intros H. destruct (safeParse r) eqn:E; [discriminate H|].
      intros raw [<-|Hin]; [eexists; exact E | now apply IH].
    + intros H. destruct (H r (or_introl eq_refl)) as [issues ->].
      apply IH. intros raw Hin. apply H. now right.
Qed.

Lemma errors_from_nil (data : list RawRow) :
  forall index,
    errors_from index data = [] <->
    forall raw, In raw data -> exists row, safeParse raw = OK row.
Proof.
  induction data as [|r data IH]; intros index; cbn [errors_from].
  - split; [intros _ raw [] | reflexivity].
  - unfold error_of_row. split.
    + intros H. destruct (safeParse r) eqn:E; [|discriminate H].
      intros raw [<-|Hin]; [eexists; exact E | now apply (IH (S index))].
    + intros H. destruct (H r (or_introl eq_refl)) as [row ->].
      apply (IH (S index)). intros raw Hin. apply H. now right.
Qed.

(** X19: the two ends of a validation: [validRows] is empty exactly when
    every record of the file is refused (and so for a file without
    records), and [errors] is empty exactly when every record passes. *)
Theorem validateRows_all_or_nothing (data : list RawRow) :
  (validRows (validateRows data) = [] <->
   forall raw, In raw data ->
               exists issues, safeParse raw = INVALID issues)
  /\ (res_errors (validateRows data) = [] <->
      forall raw, In raw data -> exists row, safeParse raw = OK row).
Proof.
  rewrite validateRows_eq. cbn [validRows res_errors].
  split; [apply valid_of_nil | apply errors_from_nil].
Qed.

End CsvParserExtras.

(** ** The provider and the table *)

Module CallerExtras.
Import JS Types DistanceCalculator DataAggregator Schema CsvParser.
Import JourneyContextProvider RouteTable.
Import NumberFacts AggregatorFacts SchemaFacts CsvParserFacts.
Import AggregatorExtras.

(** The state [loadJourneyData] leaves. *)
Definition loaded (journeys : list Journey) (groups : list RouteGroup)
  : State :=
  {| st_journeys := journeys; st_routeGroups := groups;
     selectedRoute := None; isLoading := false; error := None |}.

Lemma loadJourneyData_loaded (thrown : jsstring)
    (rows : list TransportRow) (st : State) :
  exists groups,
    processCsvData rows
    = Some (mkProcessed (map_indexed toJourney 0 rows) groups)
    /\ loadJourneyData thrown rows st
       = loaded (map_indexed toJourney 0 rows) groups.
Proof.
  destruct (run_groups rows) as [groups [Hp _]].
  exists groups. split; [exact Hp|].
  unfold loadJourneyData. now rewrite Hp.
Qed.

Lemma find_by_key (groups : list RouteGroup) (g : RouteGroup) :
  NoDup (map routeKey groups) -> In g groups ->
  find (fun r => if jsstring_eq_dec (routeKey r) (routeKey g)
                 then true else false) groups = Some g.
Proof.
  induction groups as [|r groups IH]; intros Hnd Hin; [contradiction|].
  inversion Hnd as [|? ? Hr Hnd']; subst. cbn [find].
  destruct Hin as [->|Hin].
  - now destruct (jsstring_eq_dec (routeKey g) (routeKey g)).
  - destruct (jsstring_eq_dec (routeKey r) (routeKey g)) as [E|_];
      [|now apply IH].
    exfalso. apply Hr. rewrite E. now apply in_map.
Qed.

Lemma find_no_key (groups : list RouteGroup) (k : jsstring) :
  ~ In k (map routeKey groups) ->
  find (fun r => if jsstring_eq_dec (routeKey r) k then true else false)
       groups = None.
Proof.
  induction groups as [|r groups IH]; intros Hnin; [reflexivity|].
  cbn [find]. cbn [map In] in Hnin.
  destruct (jsstring_eq_dec (routeKey r) k); [tauto|].
  apply IH. tauto.
Qed.

(** The key of a route group of a run is not the empty string. *)
Lemma run_key_not_empty (rows : list TransportRow)
    (groups : list RouteGroup) (g : RouteGroup) :
  (forall g,
     In g groups ->
     exists first rest,
       g = groupOf (routeKey g) first rest
       /\ first :: rest
          = filter (has_key (routeKey g))
                   (map_indexed toJourney 0 rows)) ->
  In g groups -> exists c rest, routeKey g = c :: rest.
Proof.
  intros Hall Hin. destruct (Hall g Hin) as [first [rest [_ Hmem]]].
  assert (Hf : In first (filter (has_key (routeKey g))
                                (map_indexed toJourney 0 rows)))
    by (rewrite <- Hmem; now left).
  apply filter_In in Hf. destruct Hf as [_ Hk].
  apply has_key_true in Hk. rewrite <- Hk. unfold routeKeyOf.
  destruct (route_origin (route first)); eexists; eexists; reflexivity.
Qed.

(** X15: loading never fails: whatever the state before and whatever the
    rows, [loadJourneyData] leaves no error and no selection, is no
    longer loading, and holds the journeys and route groups of
    [processCsvData], one journey for each row; the chart then shows all
    routes. *)
Theorem loadJourneyData_never_fails (thrown : jsstring)
    (rows : list TransportRow) (st : State) :
  error (loadJourneyData thrown rows st) = None
  /\ isLoading (loadJourneyData thrown rows st) = false
  /\ selectedRoute (loadJourneyData thrown rows st) = None
  /\ processCsvData rows
     = Some {| out_journeys :=
                 st_journeys (loadJourneyData thrown rows st);
               out_routeGroups :=
                 st_routeGroups (loadJourneyData thrown rows st) |}
  /\ List.length (st_journeys (loadJourneyData thrown rows st))
     = List.length rows
  /\ selectedRouteChartData (loadJourneyData thrown rows st)
     = getGlobalWeightByMode
         (st_journeys (loadJourneyData thrown rows st)).
Proof.
  destruct (loadJourneyData_loaded thrown rows st) as [groups [Hp ->]].
  cbn [loaded error isLoading selectedRoute st_journeys st_routeGroups].
  repeat split; try assumption. apply map_indexed_length.
Qed.

(** X16: the chart follows the selection: after a load, selecting the key
    of a route group shows the weights of that group's journeys, and
    selecting a key of no group shows all routes. *)
Theorem selected_chart (thrown : jsstring) (rows : list TransportRow)
    (st : State) :
  (forall g,
     In g (st_routeGroups (loadJourneyData thrown rows st)) ->
     selectedRouteChartData
       (setSelectedRoute (Some (routeKey g))
                         (loadJourneyData thrown rows st))
     = getGlobalWeightByMode (journeys g))
  /\ (forall k,
        ~ In k (map routeKey
                    (st_routeGroups (loadJourneyData thrown rows st))) ->
        selectedRouteChartData
          (setSelectedRoute (Some k) (loadJourneyData thrown rows st))
        = allRoutesChartData (loadJourneyData thrown rows st)).
Proof.
  destruct (run_groups rows) as [groups [Hp [Hg Hall]]].
  assert (E : loadJourneyData thrown rows st
              = loaded (map_indexed toJourney 0 rows) groups)
    by (unfold loadJourneyData; now rewrite Hp).
  rewrite E. cbn [loaded st_routeGroups].
  destruct (run_partition rows groups Hg) as [Hnd _].
  split.
  - intros g Hin.
    destruct (run_key_not_empty rows groups g Hall Hin) as [c [t Hk]].
    unfold selectedRouteChartData, setSelectedRoute.
    cbn [selectedRoute st_routeGroups loaded].
    rewrite find_by_key by assumption.
    now rewrite Hk.
  - intros k Hnin.
    unfold selectedRouteChartData, setSelectedRoute.
    cbn [selectedRoute st_routeGroups loaded].
    rewrite find_no_key by assumption.
    now destruct k.
Qed.

Lemma selected_chart_witness :
  selectedRouteChartData
    (setSelectedRoute (Some (lit "London" ++ arrow ++ lit "Paris"))
       (loadJourneyData [] london_paris_rows initialState))
  = {| road := of_Z 300; sea := of_Z 0 |}
  /\ selectedRouteChartData
       (setSelectedRoute (Some (lit "Nowhere"))
          (loadJourneyData [] london_paris_rows initialState))
     = {| road := of_Z 300; sea := of_Z 0 |}.
Proof.
  destruct (selected_chart [] london_paris_rows initialState)
    as [Hsel Hother].
  split.
  - match eval vm_compute in
      (st_routeGroups (loadJourneyData [] london_paris_rows initialState))
    with
    | [?g0] =>
        transitivity (getGlobalWeightByMode (journeys g0));
        [exact (Hsel g0 (or_introl eq_refl)) | reflexivity]
    end.
  - rewrite (Hother (lit "Nowhere")); [reflexivity|].
    vm_compute. intros [H|[]]. discriminate H.
Defined.

(** X17: a click on a table row toggles the selection: after a load, a
    click on the row of a route group selects it, asks for the scroll to
    the chart and makes the chart show that group; a second click on the
    same row gives back the state after the load, without a scroll. *)
Theorem row_click_toggles (thrown : jsstring) (rows : list TransportRow)
    (st : State) (g : RouteGroup) :
  In g (st_routeGroups (loadJourneyData thrown rows st)) ->
  let first_click :=
    handleRowClick (routeKey g) (loadJourneyData thrown rows st) in
  let second_click := handleRowClick (routeKey g) (fst first_click) in
  selectedRoute (fst first_click) = Some (routeKey g)
  /\ snd first_click = true
  /\ selectedRouteChartData (fst first_click)
     = getGlobalWeightByMode (journeys g)
  /\ fst second_click = loadJourneyData thrown rows st
  /\ snd second_click = false.
Proof.
  destruct (run_groups rows) as [groups [Hp [Hg Hall]]].
  assert (E : loadJourneyData thrown rows st
              = loaded (map_indexed toJourney 0 rows) groups)
    by (unfold loadJourneyData; now rewrite Hp).
  rewrite E. cbn [loaded st_routeGroups]. intros Hin. cbn zeta.
  destruct (run_partition rows groups Hg) as [Hnd _].
  destruct (run_key_not_empty rows groups g Hall Hin) as [c [t Hk]].
  unfold handleRowClick, setSelectedRoute, selectedRouteChartData.
  cbn [fst snd selectedRoute st_routeGroups st_journeys isLoading error
       loaded].
  rewrite find_by_key by assumption.
  destruct (jsstring_eq_dec (routeKey g) (routeKey g)); [|congruence].
  rewrite Hk. repeat split.
Qed.

Lemma row_click_toggles_witness :
  fst (handleRowClick (lit "London" ++ arrow ++ lit "Paris")
         (fst (handleRowClick (lit "London" ++ arrow ++ lit "Paris")
                 (loadJourneyData [] london_paris_rows initialState))))
  = loadJourneyData [] london_paris_rows initialState.
Proof.
  match eval vm_compute in
    (st_routeGroups (loadJourneyData [] london_paris_rows initialState))
  with
  | [?g0] =>
      destruct (row_click_toggles [] london_paris_rows initialState g0
                  (or_introl eq_refl)) as [_ [_ [_ [H _]]]];
      exact H
  end.
Defined.

Lemma SortField_eqb_eq (a b : SortField) :
  SortField_eqb a b = true <-> a = b.
Proof. destruct a, b; cbn; split; congruence. Qed.

Lemma SortField_eqb_refl (a : SortField) : SortField_eqb a a = true.
Proof. now apply SortField_eqb_eq. Qed.

Lemma SortField_eqb_neq (a b : SortField) :
  a <> b -> SortField_eqb a b = false.
Proof.
  intros H. destruct (SortField_eqb a b) eqn:E; [|reflexivity].
  apply SortField_eqb_eq in E. contradiction.
Qed.

(** X18: a click on a column header sorts by that column: ascending when
    the column changes, the other way round when it is the current one,
    so that two clicks on the current column give back the sort state;
    the arrow is shown on the sorted column only. *)
Theorem header_click_sorts (field : SortField) (s : SortState) :
  sortField (handleSort field s) = field
  /\ (sortField s <> field -> sortDirection (handleSort field s) = asc)
  /\ (sortField s = field ->
      sortDirection (handleSort field s) <> sortDirection s
      /\ handleSort field (handleSort field s) = s)
  /\ (forall other,
        getSortIcon other (handleSort field s) <> None <-> other = field).
Proof.
  assert (H1 : sortField (handleSort field s) = field).
  { unfold handleSort.
    destruct (SortField_eqb (sortField s) field) eqn:E; [|reflexivity].
    now apply SortField_eqb_eq in E. }
  split; [exact H1|]. split; [|split].
  - intros Hne. unfold handleSort.
    now rewrite (SortField_eqb_neq _ _ Hne).
  - intros <-. destruct s as [f d]. unfold handleSort.
    cbn [sortField sortDirection]. rewrite SortField_eqb_refl.
    cbn [sortField sortDirection]. rewrite SortField_eqb_refl.
    destruct d; split; (discriminate || reflexivity).
  - intros other. unfold getSortIcon. rewrite H1.
    destruct (SortField_eqb field other) eqn:E; cbn [negb].
    + apply SortField_eqb_eq in E. split; [now intros _|].
      intros _. now destruct (sortDirection (handleSort field s)).
    + split; [now intros H|].
      intros ->. now rewrite SortField_eqb_refl in E.
Qed.

Lemma header_click_sorts_witness :
  sortDirection (handleSort by_distance initialSort) = asc
  /\ handleSort by_route (handleSort by_route initialSort) = initialSort.
Proof.
  destruct (header_click_sorts by_distance initialSort) as [_ [H1 _]].
  destruct (header_click_sorts by_route initialSort)
    as [_ [_ [H2 _]]].
  split.
  - apply H1. discriminate.
  - now destruct (H2 eq_refl).
Defined.

End CallerExtras.

(** ** Validator and aggregator together *)

Module PipelineExtras.
Import JS Types DistanceCalculator DataAggregator Schema CsvParser.
Import NumberFacts AggregatorFacts SchemaFacts CsvParserFacts.
Import PipelineFacts AggregatorExtras.

(** A number that is 0 or more, an infinite one too. *)
Definition nonneg (x : number) : Prop := le (of_Z 0) x = true.

Lemma add_le_mono (a b c d : number) :
  nonneg a -> nonneg c -> le a b = true -> le c d = true ->
  le (add a c) (add b d) = true /\ nonneg (add a c).
Proof.
  unfold nonneg.
  destruct a as [a| | |], b as [b| | |], c as [c| | |], d as [d| | |];
    cbn; intros Ha Hc Hab Hcd; try discriminate;
    (split; try reflexivity);
    repeat match goal with
           | H : Qle_bool _ _ = true |- _ => apply Qle_bool_iff in H
           end;
    apply Qle_bool_iff;
    try (now apply Qplus_le_compat);
    change (inject_Z 0) with (0 + 0)%Q; now apply Qplus_le_compat.
Qed.

Lemma reduce_le {A : Type} (f g : A -> number) (l : list A)
    (a b : number) :
  nonneg a -> le a b = true ->
  (forall x, In x l -> nonneg (f x) /\ le (f x) (g x) = true) ->
  le (fold_left (fun acc x => add acc (f x)) l a)
     (fold_left (fun acc x => add acc (g x)) l b) = true
  /\ nonneg (fold_left (fun acc x => add acc (f x)) l a).
Proof.
  revert a b. induction l as [|x l IH]; intros a b Ha Hab H;
    cbn [fold_left].
  - now split.
  - destruct (H x (or_introl eq_refl)) as [Hn Hle].
    destruct (add_le_mono a b (f x) (g x) Ha Hn Hab Hle) as [Hle' Hn'].
    apply IH; [exact Hn' | exact Hle' |].
    intros y Hy. apply H. now right.
Qed.

Lemma total_le_total {A : Type} (f g : A -> number) (l : list A) :
  (forall x, In x l -> nonneg (f x) /\ le (f x) (g x) = true) ->
  le (total f l) (total g l) = true /\ nonneg (total f l).
Proof. now apply reduce_le. Qed.

Lemma Math_round_mono (x y : number) :
  nonneg x -> le x y = true -> le (Math_round x) (Math_round y) = true.
Proof.
  unfold nonneg.
  destruct x as [a| | |], y as [b| | |];
    cbn [le Math_round of_Z]; intros Hx Hxy;
    try discriminate; try reflexivity.
  apply Qle_bool_iff in Hxy. apply Qle_bool_iff.
  rewrite <- Zle_Qle. apply Qfloor_resp_le.
  now apply Qplus_le_l.
Qed.

Lemma positive_weight_bounds (row : TransportRow) (index : nat) :
  gt (weightKg row) (of_Z 0) = true ->
  nonneg (totalSeaWeight (toJourney row index))
  /\ le (totalSeaWeight (toJourney row index))
        (totalRoadWeight (toJourney row index)) = true.
Proof.
  intros Hw. rewrite toJourney_road_weight.
  unfold toJourney. cbn [totalSeaWeight weight]. unfold nonneg.
  assert (H0 : le (of_Z 0) (weightKg row) = true).
  { destruct (weightKg row) as [q| | |]; cbn in *; try discriminate;
      try reflexivity.
    apply Qle_bool_iff. apply negb_true_iff in Hw.
    destruct (Qlt_le_dec (inject_Z 0) q) as [Hlt|Hle].
    - now apply Qlt_le_weak.
    - apply Qle_bool_iff in Hle. congruence. }
  assert (Hrefl : le (weightKg row) (weightKg row) = true).
  { destruct (weightKg row) as [q| | |]; cbn in *; try discriminate;
      try reflexivity.
    apply Qle_bool_iff, Qle_refl. }
  destruct (existsb _ _); now split.
Qed.

(** X21: sea never outweighs road: for the rows the validator lets
    through, the sea figure of the chart over all journeys is at most its
    road figure, and in every route group [totalSeaWeight] is at most
    [totalRoadWeight]. *)
Theorem sea_at_most_road (data : list RawRow) :
  exists out,
    processCsvData (validRows (validateRows data)) = Some out
    /\ le (sea (getGlobalWeightByMode (out_journeys out)))
          (road (getGlobalWeightByMode (out_journeys out))) = true
    /\ forall g,
         In g (out_routeGroups out) ->
         le (group_totalSeaWeight g) (group_totalRoadWeight g) = true.
Proof.
  destruct (run_groups (validRows (validateRows data)))
    as [groups [Hp [_ Hall]]].
  eexists. split; [exact Hp|]. cbn [out_journeys out_routeGroups].
  assert (Hj : forall j,
            In j (map_indexed toJourney 0 (validRows (validateRows data)))
            -> nonneg (totalSeaWeight j)
               /\ le (totalSeaWeight j) (totalRoadWeight j) = true).
  { intros j Hin. destruct (journey_of_run _ _ Hin) as [row [i [Hr ->]]].
    apply positive_weight_bounds. now apply (validRows_positive data). }
  split.
  - change (le (Math_round (total totalSeaWeight
                    (map_indexed toJourney 0
                                 (validRows (validateRows data)))))
               (Math_round (total totalRoadWeight
                    (map_indexed toJourney 0
                                 (validRows (validateRows data)))))
            = true).
    destruct (total_le_total totalSeaWeight totalRoadWeight _ Hj).
    now apply Math_round_mono.
  - intros g Hin. destruct (Hall g Hin) as [first [rest [-> Hmem]]].
    cbn [group_totalSeaWeight group_totalRoadWeight groupOf].
    apply total_le_total. intros j Hjin. apply Hj.
    rewrite Hmem in Hjin. now apply filter_In in Hjin.
Qed.

Lemma sea_at_most_road_witness :
  exists g,
    group_totalSeaWeight g = of_Z 0
    /\ group_totalRoadWeight g = of_Z 500
    /\ le (group_totalSeaWeight g) (group_totalRoadWeight g) = true.
Proof.
  destruct (sea_at_most_road short_route_data) as [out [Hp [_ H]]].
  vm_compute in Hp. injection Hp as <-.
  match type of H with
  | forall g, In g (out_routeGroups
                      {| out_journeys := _;
                         out_routeGroups := [?g0] |}) -> _ =>
      exists g0; split; [reflexivity|]; split; [reflexivity|];
      exact (H g0 (or_introl eq_refl))
  end.
Defined.

End PipelineExtras.
